(** * Piano glove MIDI controller (MIDI_sam5004b.ino)

    A shallow embedding of the sketch's controller: the sensor tables, the
    [MidiController] class with the globals it shares with the sketch, the
    BLE notification handler and the main loop, followed by the properties
    of the performance state machine. *)

From Stdlib Require Import ZArith NArith List Bool Lia.
From Stdlib Require Import Strings.Byte.
From Stdlib Require Import Floats.SpecFloat.
Import ListNotations.

Local Open Scope Z_scope.

(** ** Machine arithmetic *)

(** [unsigned long] is 32 bits wide on the ESP32. *)
Definition ULONG_MOD : Z := 2 ^ 32.

Definition to_ulong (x : Z) : Z := x mod ULONG_MOD.

(** [a - b] on [unsigned long]: the difference wraps around. *)
Definition ulong_sub (a b : Z) : Z := to_ulong (a - b).

(** [byte] is [uint8_t]; a sum stored in a [byte] keeps its low 8 bits. *)
Definition to_byte (x : Z) : Z := x mod 256.

(** [uint16_t]. *)
Definition to_uint16 (x : N) : N := (x mod 65536)%N.

(** [millis()] at the moment [T] (milliseconds since start, unbounded):
    the counter is an [unsigned long] and wraps after 2^32 ms. A handler
    is given the moment [T] at which it runs and reads the clock at [T]
    every time it calls [millis()]: it is over within the millisecond. *)
Definition millis (T : Z) : Z := to_ulong T.

(** ** Single precision values

    [currentRoll] is a [float]. Only its absolute value and its comparison
    with the angle threshold are used, so a [float] is a [spec_float] in
    canonical form for binary32 (24 bits of mantissa, least exponent -149). *)

Definition float := spec_float.

(** The [float] whose IEEE-754 binary32 encoding is the 32-bit word [w]. *)
Definition float_of_bits (w : Z) : float :=
  let s := Z.testbit w 31 in
  let e := Z.land (Z.shiftr w 23) 255 in
  let f := Z.land w (2 ^ 23 - 1) in
  if e =? 0 then
    match f with
    | Zpos m => S754_finite s m (-149)
    | _ => S754_zero s
    end
  else if e =? 255 then
    if f =? 0 then S754_infinity s else S754_nan
  else
    match f + 2 ^ 23 with
    | Zpos m => S754_finite s m (e - 150)
    | _ => S754_nan
    end.

(** The conversion of an [int] to [float] (exact for the constants used). *)
Definition float_of_int (n : Z) : float := binary_normalize 24 128 n 0 false.

(** [abs(x)] on a [float]. *)
Definition fabs (x : float) : float := SFabs x.

(** [x <= y] on [float]; false as soon as one side is a NaN. *)
Definition fle (x y : float) : bool := SFleb x y.

(** ** Arrays

    A C array is a list read with a default; the sketch indexes its arrays
    with constants and bounded loop counters only, all in range. A store
    beyond the end of the list pads it with the default, so that a read
    after a store never depends on the length. *)

Fixpoint set_nth {A : Type} (d : A) (i : nat) (v : A) (l : list A) : list A :=
  match i, l with
  | O, [] => [v]
  | O, _ :: t => v :: t
  | S k, [] => d :: set_nth d k v []
  | S k, h :: t => h :: set_nth d k v t
  end.

(** ** MIDI configuration and tables *)

Definition PRESSURE_THRESHOLD : Z := 50.
Definition CHORD_ANGLE_THRESHOLD : Z := 50.

Definition C3 : Z := 48.
Definition D3 : Z := 50.
Definition E3 : Z := 52.
Definition F3 : Z := 53.
Definition G3 : Z := 55.
Definition A3 : Z := 57.
Definition B3 : Z := 59.
Definition C4 : Z := 60.
Definition D4 : Z := 62.
Definition E4 : Z := 64.
Definition F4 : Z := 65.
Definition G4 : Z := 67.
Definition A4 : Z := 69.
Definition B4 : Z := 71.
Definition C5 : Z := 72.
Definition D5 : Z := 74.
Definition E5 : Z := 76.

(** Sensor-to-note mapping, [NOTE_MAPPING[i]]. *)
Definition NOTE_MAPPING_table : list Z := [C4; D4; E4; F4; G4; A4; B4].

Definition NOTE_MAPPING (i : nat) : Z := nth i NOTE_MAPPING_table 0.

(** Custom chord definitions, [CUSTOM_CHORDS[k]]: sensors 1-5, then the two
    combo keys. *)
Definition CUSTOM_CHORDS_table : list (list Z) :=
  [ [C4; G4; C5; E5];
    [D3; A3; D4; F4];
    [E3; B3; E4; G4];
    [F3; C4; F4; A4];
    [G3; D4; G4; B4];
    [A3; E4; A4; C5];
    [B3; F4; B4; D5] ].

Definition CUSTOM_CHORDS (k : Z) : list Z := nth (Z.to_nat k) CUSTOM_CHORDS_table [].

(** [chord[k]] on a [std::vector<byte>]. *)
Definition at_ (chord : list Z) (k : Z) : Z := nth (Z.to_nat k) chord 0.

Inductive ChordType : Type :=
| MAJOR | MINOR | AUGMENTED | DIMINISHED | SUS4 | SEVENTH.

Record Chord : Type := mkChord {
  rootNote : Z;
  thirdNote : Z;
  fifthNote : Z;
  seventhNote : Z;
  type : ChordType;
  active : bool;
  lastPressTime : Z;
  notesPlayed : list bool
}.

Definition COMBO_KEY : nat := 15.
Definition A4_KEY : nat := 1.
Definition B4_KEY : nat := 2.

(** ** MIDI output

    Every message the sketch hands to the MIDI library is logged in order.
    A log entry also records which part of the controller sent it: a note
    slot ([playNote], [releaseNote] and the slot loop of [allNotesOff]), the
    arpeggio, the chord stop or the sustain pedal. The messages alone, in
    the order of the log, are what goes out on the serial line. *)

Inductive MidiMsg : Type :=
| NoteOn (pitch velocity channel : Z)
| NoteOff (pitch velocity channel : Z)
| ControlChange (controller value channel : Z).

Inductive Site : Type :=
| SlotSite (noteIndex : nat)
| ArpeggioSite
| ChordStopSite
| SustainSite.

Record Sent : Type := mkSent { site : Site; msg : MidiMsg }.

Definition wire (log : list Sent) : list MidiMsg := map msg log.

(** ** Controller state

    The fields of [MidiController] together with the globals of the sketch
    that the controller reads and writes. *)

Record State : Type := mkState {
  pressureData : list N;
  notesActive : list bool;
  currentRoll : float;
  sustainActive : bool;
  ARPEGGIO_DELAY : Z;
  lastArpeggioTime : Z;
  currentArpeggioStep : Z;
  currentChord : Chord;
  comboKeyActive : bool
}.

Definition initial : State := {|
  pressureData := repeat 0%N 25;
  notesActive := repeat false 7;
  currentRoll := S754_zero false;
  sustainActive := false;
  ARPEGGIO_DELAY := 200;
  lastArpeggioTime := 0;
  currentArpeggioStep := 0;
  currentChord := mkChord 0 0 0 0 MAJOR false 0 (repeat false 4);
  comboKeyActive := false
|}.

(** [pressureData[i]] and [notesActive[i]]. *)
Definition pressure (st : State) (i : nat) : N := nth i (pressureData st) 0%N.
Definition noteActive (st : State) (i : nat) : bool := nth i (notesActive st) false.

(** Field updates. *)
Definition with_sensors (roll : float) (p : list N) (st : State) : State :=
  mkState p (notesActive st) roll (sustainActive st) (ARPEGGIO_DELAY st)
    (lastArpeggioTime st) (currentArpeggioStep st) (currentChord st) (comboKeyActive st).

Definition with_noteActive (i : nat) (b : bool) (st : State) : State :=
  mkState (pressureData st) (set_nth false i b (notesActive st)) (currentRoll st)
    (sustainActive st) (ARPEGGIO_DELAY st) (lastArpeggioTime st)
    (currentArpeggioStep st) (currentChord st) (comboKeyActive st).

Definition with_sustainActive (b : bool) (st : State) : State :=
  mkState (pressureData st) (notesActive st) (currentRoll st) b (ARPEGGIO_DELAY st)
    (lastArpeggioTime st) (currentArpeggioStep st) (currentChord st) (comboKeyActive st).

Definition with_ARPEGGIO_DELAY (d : Z) (st : State) : State :=
  mkState (pressureData st) (notesActive st) (currentRoll st) (sustainActive st) d
    (lastArpeggioTime st) (currentArpeggioStep st) (currentChord st) (comboKeyActive st).

Definition with_lastArpeggioTime (t : Z) (st : State) : State :=
  mkState (pressureData st) (notesActive st) (currentRoll st) (sustainActive st)
    (ARPEGGIO_DELAY st) t (currentArpeggioStep st) (currentChord st) (comboKeyActive st).

Definition with_currentArpeggioStep (k : Z) (st : State) : State :=
  mkState (pressureData st) (notesActive st) (currentRoll st) (sustainActive st)
    (ARPEGGIO_DELAY st) (lastArpeggioTime st) k (currentChord st) (comboKeyActive st).

Definition with_currentChord (f : Chord -> Chord) (st : State) : State :=
  mkState (pressureData st) (notesActive st) (currentRoll st) (sustainActive st)
    (ARPEGGIO_DELAY st) (lastArpeggioTime st) (currentArpeggioStep st)
    (f (currentChord st)) (comboKeyActive st).

Definition with_comboKeyActive (b : bool) (st : State) : State :=
  mkState (pressureData st) (notesActive st) (currentRoll st) (sustainActive st)
    (ARPEGGIO_DELAY st) (lastArpeggioTime st) (currentArpeggioStep st)
    (currentChord st) b.

Definition chord_rootNote (r : Z) (c : Chord) : Chord :=
  mkChord r (thirdNote c) (fifthNote c) (seventhNote c) (type c) (active c)
    (lastPressTime c) (notesPlayed c).

Definition chord_notes (third fifth seventh : Z) (c : Chord) : Chord :=
  mkChord (rootNote c) third fifth seventh (type c) (active c)
    (lastPressTime c) (notesPlayed c).

Definition chord_type (t : ChordType) (c : Chord) : Chord :=
  mkChord (rootNote c) (thirdNote c) (fifthNote c) (seventhNote c) t (active c)
    (lastPressTime c) (notesPlayed c).

Definition chord_active (b : bool) (c : Chord) : Chord :=
  mkChord (rootNote c) (thirdNote c) (fifthNote c) (seventhNote c) (type c) b
    (lastPressTime c) (notesPlayed c).

Definition chord_lastPressTime (t : Z) (c : Chord) : Chord :=
  mkChord (rootNote c) (thirdNote c) (fifthNote c) (seventhNote c) (type c) (active c)
    t (notesPlayed c).

Definition chord_notesPlayed (l : list bool) (c : Chord) : Chord :=
  mkChord (rootNote c) (thirdNote c) (fifthNote c) (seventhNote c) (type c) (active c)
    (lastPressTime c) l.

(** ** The controller monad: state passing with an output log *)

Record Run (A : Type) : Type := mkRun { value : A; final : State; sent : list Sent }.
Arguments mkRun {A} _ _ _.
Arguments value {A} _.
Arguments final {A} _.
Arguments sent {A} _.

Definition M (A : Type) : Type := State -> Run A.

Definition ret {A : Type} (a : A) : M A := fun st => mkRun a st [].

Definition bind {A B : Type} (m : M A) (k : A -> M B) : M B := fun st =>
  let r1 := m st in
  let r2 := k (value r1) (final r1) in
  mkRun (value r2) (final r2) (sent r1 ++ sent r2).

Definition get : M State := fun st => mkRun st st [].

Definition modify (f : State -> State) : M unit := fun st => mkRun tt (f st) [].

Definition send (s : Site) (m : MidiMsg) : M unit := fun st => mkRun tt st [mkSent s m].

Definition skip : M unit := ret tt.

Definition when (c : bool) (m : M unit) : M unit := if c then m else skip.

Declare Scope ctl_scope.
Delimit Scope ctl_scope with ctl.
Notation "x <- m ;; k" := (bind m (fun x => k))
  (at level 61, m at next level, right associativity) : ctl_scope.
Notation "m ;; k" := (bind m (fun _ => k))
  (at level 61, right associativity) : ctl_scope.
Local Open Scope ctl_scope.

(** [for (i in is) body(i)]. *)
Fixpoint forEach {A : Type} (l : list A) (body : A -> M unit) : M unit :=
  match l with
  | [] => skip
  | a :: r => body a ;; forEach r body
  end.

(** ** Calls into the MIDI library *)

Definition sendNoteOn (s : Site) (pitch velocity channel : Z) : M unit :=
  send s (NoteOn pitch velocity channel).

Definition sendNoteOff (s : Site) (pitch velocity channel : Z) : M unit :=
  send s (NoteOff pitch velocity channel).

Definition sendControlChange (s : Site) (controller v channel : Z) : M unit :=
  send s (ControlChange controller v channel).

(** Modelled from the spec: [map] belongs to the Arduino core, which is not
    part of the sketch. It is the linear interpolation of [x] from
    [in_min, in_max] onto [out_min, out_max], computed on [long]: the product
    first, then the division, which truncates towards zero. *)
Definition map_long (x in_min in_max out_min out_max : Z) : Z :=
  Z.quot ((x - in_min) * (out_max - out_min)) (in_max - in_min) + out_min.

(** ** MidiController *)

Definition updateSensorData (roll : float) (pressures : list N) : M unit :=
  modify (with_sensors roll pressures).

Definition calculateVelocity (sensorIndex : nat) (st : State) : Z :=
  map_long (Z.min (Z.of_N (pressure st sensorIndex)) 1000)
    PRESSURE_THRESHOLD 1000 70 127.

Definition playNote (noteIndex : nat) (velocity : Z) : M unit :=
  st <- get ;;
  when (negb (noteActive st noteIndex))
    (sendNoteOn (SlotSite noteIndex) (NOTE_MAPPING noteIndex) velocity 1 ;;
     modify (with_noteActive noteIndex true)).

Definition releaseNote (noteIndex : nat) : M unit :=
  st <- get ;;
  when (noteActive st noteIndex)
    (sendNoteOff (SlotSite noteIndex) (NOTE_MAPPING noteIndex) 0 1 ;;
     modify (with_noteActive noteIndex false)).

Definition updateChordNotes : M unit :=
  modify (with_currentChord (fun c =>
    let root := rootNote c in
    match type c with
    | MAJOR => chord_notes (to_byte (root + 4)) (to_byte (root + 7)) 0 c
    | MINOR => chord_notes (to_byte (root + 3)) (to_byte (root + 7)) 0 c
    | AUGMENTED => chord_notes (to_byte (root + 4)) (to_byte (root + 8)) 0 c
    | DIMINISHED => chord_notes (to_byte (root + 3)) (to_byte (root + 6)) 0 c
    | SUS4 => chord_notes (to_byte (root + 5)) (to_byte (root + 7)) 0 c
    | SEVENTH =>
        chord_notes (to_byte (root + 4)) (to_byte (root + 7)) (to_byte (root + 10)) c
    end)).

Definition setChordType (t : ChordType) : M unit :=
  modify (with_currentChord (chord_type t)) ;;
  updateChordNotes.

(** The scan of [stopCurrentChord] over the single-note sensors: every
    sensor with a pressure above zero overwrites [chordIndex]. *)
Definition lastPressed (st : State) : Z :=
  fold_left (fun chordIndex i => if (0 <? pressure st i)%N then Z.of_nat i else chordIndex)
    (seq 0 5) (-1).

(** [chordIndex] as [stopCurrentChord] identifies it. *)
Definition stopIndex (st : State) : Z :=
  if comboKeyActive st then
    if (0 <? pressure st A4_KEY)%N then 5
    else if (0 <? pressure st B4_KEY)%N then 6
    else -1
  else lastPressed st.

Definition stopCurrentChord : M unit :=
  st <- get ;;
  when (active (currentChord st))
    (let chordIndex := stopIndex st in
     when (0 <=? chordIndex)
       (let chord := CUSTOM_CHORDS chordIndex in
        forEach chord (fun note => sendNoteOff ChordStopSite note 0 1)) ;;
     modify (with_currentArpeggioStep 0) ;;
     modify (with_currentChord (chord_active false))).

(** The block shared by the three triggers: a root other than the one of the
    active chord (or no active chord) stops the chord and starts a new one on
    [NOTE_MAPPING[noteIndex]]. *)
Definition triggerChord (noteIndex : nat) (T : Z) : M unit :=
  st <- get ;;
  when (negb (active (currentChord st))
        || negb (rootNote (currentChord st) =? NOTE_MAPPING noteIndex))
    (stopCurrentChord ;;
     modify (with_currentChord (chord_rootNote (NOTE_MAPPING noteIndex))) ;;
     updateChordNotes ;;
     modify (with_currentChord (chord_lastPressTime (millis T))) ;;
     modify (with_currentChord (chord_active true)) ;;
     modify (with_currentChord (chord_notesPlayed (repeat false 4)))).

Definition above_threshold (st : State) (i : nat) : bool :=
  PRESSURE_THRESHOLD <? Z.of_N (pressure st i).

Definition handleComboNotes (T : Z) : M unit :=
  st <- get ;;
  if above_threshold st A4_KEY then
    let velocity := calculateVelocity A4_KEY st in
    triggerChord 5 T ;;
    playNote 5 velocity ;;
    st1 <- get ;;
    when (noteActive st1 1) (releaseNote 1)
  else if above_threshold st B4_KEY then
    let velocity := calculateVelocity B4_KEY st in
    triggerChord 6 T ;;
    playNote 6 velocity ;;
    st1 <- get ;;
    when (noteActive st1 2) (releaseNote 2)
  else
    releaseNote 5 ;;
    releaseNote 6 ;;
    st1 <- get ;;
    when (active (currentChord st1)
          && ((rootNote (currentChord st1) =? NOTE_MAPPING 5)
              || (rootNote (currentChord st1) =? NOTE_MAPPING 6)))
      stopCurrentChord.

(** The body of the loop of [handleSingleNotes] at sensor [i]. *)
Definition singleNote (T : Z) (i : nat) : M unit :=
  st <- get ;;
  if above_threshold st i then
    let velocity := calculateVelocity i st in
    triggerChord i T ;;
    playNote i velocity
  else
    when (noteActive st i)
      (releaseNote i ;;
       st1 <- get ;;
       when (active (currentChord st1) && (rootNote (currentChord st1) =? NOTE_MAPPING i))
         stopCurrentChord).

Definition handleSingleNotes (T : Z) : M unit :=
  forEach (seq 0 5) (singleNote T).

Definition checkComboKeys (T : Z) : M unit :=
  st <- get ;;
  let newComboState := above_threshold st COMBO_KEY in
  when (negb (Bool.eqb newComboState (comboKeyActive st)))
    (modify (with_comboKeyActive newComboState) ;;
     when (negb newComboState) (releaseNote 5 ;; releaseNote 6)) ;;
  st1 <- get ;;
  if comboKeyActive st1 then handleComboNotes T else handleSingleNotes T.

(** The scan of [handleChordPlayback] over the single-note sensors: the
    first sensor above the threshold, or -1. *)
Fixpoint firstAbove (st : State) (sensors : list nat) : Z :=
  match sensors with
  | [] => -1
  | i :: rest => if above_threshold st i then Z.of_nat i else firstAbove st rest
  end.

(** [chordIndex] as [handleChordPlayback] determines it. *)
Definition playbackIndex (st : State) : Z :=
  if comboKeyActive st then
    if above_threshold st A4_KEY then 5
    else if above_threshold st B4_KEY then 6
    else -1
  else firstAbove st (seq 0 5).

Definition handleChordPlayback (T : Z) : M unit :=
  st <- get ;;
  if negb (active (currentChord st))
     || fle (fabs (currentRoll st)) (float_of_int CHORD_ANGLE_THRESHOLD)
  then modify (with_currentArpeggioStep 0)
  else
    let chordIndex := playbackIndex st in
    if chordIndex <? 0 then stopCurrentChord
    else
      let chord := CUSTOM_CHORDS chordIndex in
      when (ARPEGGIO_DELAY st <? ulong_sub (millis T) (lastArpeggioTime st))
        (let step := currentArpeggioStep st in
         when (0 <? step) (sendNoteOff ArpeggioSite (at_ chord (step - 1)) 0 1) ;;
         sendNoteOn ArpeggioSite (at_ chord step) 100 1 ;;
         modify (with_currentArpeggioStep (to_ulong (step + 1) mod Z.of_nat (length chord))) ;;
         modify (with_lastArpeggioTime (millis T))).

Definition checkSustain (T : Z) : M unit :=
  st <- get ;;
  if negb (active (currentChord st)) then
    when (sustainActive st)
      (sendControlChange SustainSite 64 0 1 ;;
       modify (with_sustainActive false))
  else
    let shouldSustain := 300 <? ulong_sub (millis T) (lastPressTime (currentChord st)) in
    when (negb (Bool.eqb shouldSustain (sustainActive st)))
      (sendControlChange SustainSite 64 (if shouldSustain then 127 else 0) 1 ;;
       modify (with_sustainActive shouldSustain)).

Definition handleControls (T : Z) : M unit :=
  checkComboKeys T ;;
  handleChordPlayback T ;;
  checkSustain T.

(** The body of the slot loop of [allNotesOff]. *)
Definition slotOff (i : nat) : M unit :=
  st <- get ;;
  when (noteActive st i)
    (sendNoteOff (SlotSite i) (NOTE_MAPPING i) 0 1 ;;
     modify (with_noteActive i false)).

Definition allNotesOff : M unit :=
  forEach (seq 0 7) slotOff ;;
  st <- get ;;
  when (sustainActive st)
    (sendControlChange SustainSite 64 0 1 ;;
     modify (with_sustainActive false)) ;;
  stopCurrentChord.

(** ** BleManager: the notification handler *)

(** [pData[k]] as an unsigned value. *)
Definition byte_at (pData : list byte) (k : nat) : N := Byte.to_N (nth k pData x00).

(** [*((float* )&pData[6])]: four bytes, least significant first. *)
Definition float_at (pData : list byte) (k : nat) : float :=
  float_of_bits
    (Z.of_N (byte_at pData k)
     + Z.shiftl (Z.of_N (byte_at pData (k + 1))) 8
     + Z.shiftl (Z.of_N (byte_at pData (k + 2))) 16
     + Z.shiftl (Z.of_N (byte_at pData (k + 3))) 24).

(** The 25 pressures of a payload, two bytes each, most significant first. *)
Definition pressures_of (pData : list byte) : list N :=
  List.map (fun i =>
    to_uint16 (N.lor (N.shiftl (byte_at pData (14 + i * 2)) 8) (byte_at pData (15 + i * 2))))
    (seq 0 25).

(** The test that lets a payload through. *)
Definition rejected (pData : list byte) : bool :=
  (length pData <? 66)%nat
  || negb (byte_at pData 0 =? 0xAB)%N
  || negb (byte_at pData 1 =? 0xCD)%N.

(** The callback registered by [setupNotifications], called with the
    payload [pData] at the moment [T]. *)
Definition onNotify (pData : list byte) (T : Z) : M unit :=
  if rejected pData then skip
  else
    let roll := float_at pData 6 in
    let pressures := pressures_of pData in
    updateSensorData roll pressures ;;
    handleControls T.

(** [MyClientCallback::onDisconnect]. *)
Definition onDisconnect : M unit := allNotesOff.

(** ** The main loop *)

(** What one line read from the serial console selects in [loop]. *)
Inductive SerialCmd : Type :=
| CmdC
| CmdChord (t : ChordType)
| CmdArp (ms : Z)
| CmdOther.

(** One pass of [loop()]: [cmd] is the line read when [Serial.available()],
    [None] when nothing is waiting. ([bleManager.loop()] only reconnects and
    does not touch the controller.) *)
Definition loop (cmd : option SerialCmd) : M unit :=
  match cmd with
  | None => skip
  | Some CmdC => allNotesOff
  | Some (CmdChord t) => setChordType t
  | Some (CmdArp ms) => modify (with_ARPEGGIO_DELAY (to_ulong ms))
  | Some CmdOther => skip
  end.

(** ** Runs of the whole sketch

    What reaches the controller, one at a time: a notification with its
    payload at the moment [T], the loss of the link, a pass of the main
    loop. The handlers are taken to run one after the other. *)

Inductive Input : Type :=
| Notify (pData : list byte) (T : Z)
| Disconnect
| Loop (cmd : option SerialCmd).

Definition react (i : Input) : M unit :=
  match i with
  | Notify pData T => onNotify pData T
  | Disconnect => onDisconnect
  | Loop cmd => loop cmd
  end.

(** The controller run over a sequence of inputs. *)
Definition runAll (ins : list Input) : M unit := forEach ins react.

(** The logs of the successive inputs of a run, one per input. *)
Fixpoint outputs (ins : list Input) (st : State) : list (list Sent) :=
  match ins with
  | [] => []
  | i :: rest => sent (react i st) :: outputs rest (final (react i st))
  end.

(** The states after the successive inputs of a run. *)
Fixpoint states (ins : list Input) (st : State) : list State :=
  match ins with
  | [] => []
  | i :: rest => final (react i st) :: states rest (final (react i st))
  end.

(** ** Notions used in the statements *)

(** [m] relates the state it starts from, the state it ends in and what it
    sends by [R], from every state. *)
Definition respects {A : Type} (R : State -> State -> list Sent -> Prop) (m : M A) : Prop :=
  forall st, R st (final (m st)) (sent (m st)).

(** [m] leaves the observation [f] of the state as it was. *)
Definition keeps {A X : Type} (f : State -> X) (m : M A) : Prop :=
  respects (fun a b _ => f b = f a) m.

(** Everything [m] sends satisfies [P]. *)
Definition sendsOnly {A : Type} (P : Sent -> Prop) (m : M A) : Prop :=
  respects (fun _ _ log => Forall P log) m.

(** The note-off of a chord-stop for one pitch, and for a chord. *)
Definition chordOff (note : Z) : Sent := mkSent ChordStopSite (NoteOff note 0 1).

Definition chordOffs (chord : list Z) : list Sent := List.map chordOff chord.

(** The note-off of slot [i], and the sustain-off message. *)
Definition slotNoteOff (i : nat) : Sent := mkSent (SlotSite i) (NoteOff (NOTE_MAPPING i) 0 1).

Definition sustainOff : Sent := mkSent SustainSite (ControlChange 64 0 1).

Definition sustainOn : Sent := mkSent SustainSite (ControlChange 64 127 1).

(** A note-on, respectively a note-off, sent for slot [i]. *)
Definition isSlotOn (i : nat) (e : Sent) : bool :=
  match site e, msg e with
  | SlotSite j, NoteOn _ _ _ => (j =? i)%nat
  | _, _ => false
  end.

Definition isSlotOff (i : nat) (e : Sent) : bool :=
  match site e, msg e with
  | SlotSite j, NoteOff _ _ _ => (j =? i)%nat
  | _, _ => false
  end.

(** Reading a log from a moment where slot [i] is sounding or not ([on]):
    [Some b] when no note-on for slot [i] comes while the slot is sounding,
    [b] telling whether it sounds at the end; [None] otherwise. *)
Fixpoint alternates (i : nat) (on : bool) (log : list Sent) : option bool :=
  match log with
  | [] => Some on
  | e :: rest =>
      if isSlotOn i e then (if on then None else alternates i true rest)
      else if isSlotOff i e then alternates i false rest
      else alternates i on rest
  end.

(** The log agrees with the active flag of slot [i]: read from the flag at
    the start, it goes through and ends on the flag at the end. *)
Definition tracked (i : nat) (a b : State) (log : list Sent) : Prop :=
  alternates i (noteActive a i) log = Some (noteActive b i).

(** The chord-stop selection in the words of the specification: with the
    combo latch active, combo slot 5 (sensor [A4_KEY]) is looked at before
    combo slot 6 (sensor [B4_KEY]); otherwise the last of the single-note
    slots 0..4, in ascending order, with a nonzero pressure. *)
Definition nonzero (st : State) (i : nat) : bool := negb (pressure st i =? 0)%N.

Definition stopSelection (st : State) : option nat :=
  if comboKeyActive st then
    if nonzero st A4_KEY then Some 5%nat
    else if nonzero st B4_KEY then Some 6%nat
    else None
  else last (List.map Some (filter (nonzero st) (seq 0 5))) None.

(** No sensor that [stopCurrentChord] scans reads above zero. *)
Definition scannedZero (st : State) : Prop :=
  if comboKeyActive st then pressure st A4_KEY = 0%N /\ pressure st B4_KEY = 0%N
  else forall i, (i < 5)%nat -> pressure st i = 0%N.

(** The velocity in the words of the specification: the linear
    interpolation of the pressure, capped at 1000, from [threshold, 1000]
    onto [70, 127], clamped at the output bounds. *)
Definition clamp_map (x fromLow fromHigh toLow toHigh : Z) : Z :=
  Z.max toLow (Z.min toHigh (toLow + (x - fromLow) * (toHigh - toLow) / (fromHigh - fromLow))).

Definition velocityOf (p : N) : Z :=
  clamp_map (Z.min (Z.of_N p) 1000) PRESSURE_THRESHOLD 1000 70 127.

(** What [allNotesOff] sends, part by part: a note-off for each slot that
    is flagged active, in ascending order; the sustain-off when the sustain
    is asserted; the note-offs of the chord set that the stop selects when a
    chord is active. *)
Definition slotOffs (st : State) : list Sent :=
  flat_map (fun i => if noteActive st i then [slotNoteOff i] else []) (seq 0 7).

Definition sustainRelease (st : State) : list Sent :=
  if sustainActive st then [sustainOff] else [].

Definition chordRelease (st : State) : list Sent :=
  if active (currentChord st) then
    match stopSelection st with
    | Some k => chordOffs (CUSTOM_CHORDS (Z.of_nat k))
    | None => []
    end
  else [].

(** The state in which [allNotesOff] reaches the chord stop. *)
Definition beforeStop (st : State) : State :=
  let st1 := final (forEach (seq 0 7) slotOff st) in
  if sustainActive st1 then with_sustainActive false st1 else st1.

(** A message sent for the sustain pedal. *)
Definition fromSustain (e : Sent) : bool :=
  match site e with
  | SustainSite => true
  | _ => false
  end.

(** A run of evaluations: notifications with their payloads and moments. *)
Definition evaluations (evals : list (list byte * Z)) : list Input :=
  List.map (fun e => Notify (fst e) (snd e)) evals.

(** The chord triggered at the moment [T0] is still the active one. *)
Definition heldSince (T0 : Z) (st : State) : Prop :=
  active (currentChord st) = true /\ lastPressTime (currentChord st) = millis T0.

(** A control-change is sent for the sustain pedal only. *)
Definition pedalOnly (e : Sent) : Prop :=
  match msg e with
  | ControlChange _ _ _ => site e = SustainSite
  | _ => True
  end.

(** The pressures and the latch: what decides the mode and the triggers. *)
Definition inputs (st : State) : list N * bool := (pressureData st, comboKeyActive st).

(** The state in which [checkComboKeys] chooses between the two modes. *)
Definition latched (st : State) : State :=
  let newComboState := above_threshold st COMBO_KEY in
  final (when (negb (Bool.eqb newComboState (comboKeyActive st)))
           (modify (with_comboKeyActive newComboState) ;;
            when (negb newComboState) (releaseNote 5 ;; releaseNote 6)) st).

(** The combo-gated slots sound only while the combo latch is active. *)
Definition comboGated (st : State) : Prop :=
  comboKeyActive st = false -> noteActive st 5 = false /\ noteActive st 6 = false.

(** The state with the chord stopped and the arpeggio cursor at step 0. *)
Definition stopped (st : State) : State :=
  with_currentChord (chord_active false) (with_currentArpeggioStep 0 st).

(** ** The rest of the controller *)

(** [getNoteIndex]: the scan of [NOTE_MAPPING] for [note], from the given
    slots on; the first slot that holds it, or -1. *)
Fixpoint scanNoteIndex (note : Z) (slots : list nat) : Z :=
  match slots with
  | [] => -1
  | i :: rest => if NOTE_MAPPING i =? note then Z.of_nat i else scanNoteIndex note rest
  end.

Definition getNoteIndex (note : Z) : Z := scanNoteIndex note (seq 0 7).

(** ** Notions used in the further statements *)

(** The intervals that [updateChordNotes] adds to the root, by chord type;
    the seventh is left at 0 where the type has none. *)
Definition thirdOffset (t : ChordType) : Z :=
  match t with
  | MAJOR | AUGMENTED | SEVENTH => 4
  | MINOR | DIMINISHED => 3
  | SUS4 => 5
  end.

Definition fifthOffset (t : ChordType) : Z :=
  match t with
  | MAJOR | MINOR | SUS4 | SEVENTH => 7
  | AUGMENTED => 8
  | DIMINISHED => 6
  end.

Definition seventhOffset (t : ChordType) : option Z :=
  match t with
  | SEVENTH => Some 10
  | _ => None
  end.

(** A chord on one of the seven mapped roots whose notes are the intervals of
    its type above the root, none of them past the MIDI range. *)
Definition chordFormed (c : Chord) : Prop :=
  In (rootNote c) NOTE_MAPPING_table
  /\ thirdNote c = rootNote c + thirdOffset (type c)
  /\ fifthNote c = rootNote c + fifthOffset (type c)
  /\ seventhNote c = match seventhOffset (type c) with
                     | Some o => rootNote c + o
                     | None => 0
                     end
  /\ rootNote c < thirdNote c < fifthNote c
  /\ fifthNote c <= 127 /\ seventhNote c <= 127.

(** The active chord, if any, is well formed. *)
Definition chordInv (st : State) : Prop :=
  active (currentChord st) = true -> chordFormed (currentChord st).

(** A message the MIDI line can carry: channel 1, data bytes within 0..127,
    a note-on with a velocity that does not read as a note-off, a note-off
    with velocity 0, the sustain controller with one of its two values. *)
Definition validMsg (m : MidiMsg) : Prop :=
  match m with
  | NoteOn pitch velocity channel =>
      0 <= pitch <= 127 /\ 1 <= velocity <= 127 /\ channel = 1
  | NoteOff pitch velocity channel =>
      0 <= pitch <= 127 /\ velocity = 0 /\ channel = 1
  | ControlChange controller v channel =>
      controller = 64 /\ (v = 0 \/ v = 127) /\ channel = 1
  end.

(** Where the three stages of [handleControls] send from. *)
Definition fromNotes (e : Sent) : Prop :=
  match site e with
  | SlotSite _ | ChordStopSite => True
  | _ => False
  end.

Definition fromPlayback (e : Sent) : Prop :=
  match site e with
  | ArpeggioSite | ChordStopSite => True
  | _ => False
  end.

Definition fromPedal (e : Sent) : Prop := site e = SustainSite.

(** The arpeggio cursor points into a chord of four notes. *)
Definition cursorInv (st : State) : Prop := 0 <= currentArpeggioStep st < 4.

(** The sustain is asserted only over an active chord. *)
Definition sustainInv (st : State) : Prop :=
  sustainActive st = true -> active (currentChord st) = true.

(** [handleChordPlayback] lets the arpeggio run: a chord is active and the
    roll is beyond the angle threshold. *)
Definition gateOpen (st : State) : bool :=
  active (currentChord st)
  && negb (fle (fabs (currentRoll st)) (float_of_int CHORD_ANGLE_THRESHOLD)).

(** The arpeggio is due at the moment [T]. *)
Definition stepDue (T : Z) (st : State) : bool :=
  ARPEGGIO_DELAY st <? ulong_sub (millis T) (lastArpeggioTime st).

(** The pace of the arpeggio: the moment of its last step and its delay. *)
Definition pace (st : State) : Z * Z := (lastArpeggioTime st, ARPEGGIO_DELAY st).

(** A message of the arpeggio. *)
Definition fromArpeggio (e : Sent) : bool :=
  match site e with
  | ArpeggioSite => true
  | _ => false
  end.

(** A message of a note slot. *)
Definition fromSlot (e : Sent) : bool :=
  match site e with
  | SlotSite _ => true
  | _ => false
  end.

(** The note flags agree with the sensors, as a step leaves them: the combo
    latch follows its sensor; in single-note mode each of the slots 0..4 sounds exactly when its sensor is
    above the threshold; in combo mode the slot of the first combo sensor
    above the threshold sounds and the single-note slot on the same sensor
    does not, and with neither above slots 5 and 6 are silent. *)
Definition settled (st : State) : Prop :=
  comboKeyActive st = above_threshold st COMBO_KEY
  /\
  if comboKeyActive st then
    if above_threshold st A4_KEY then noteActive st 5 = true /\ noteActive st 1 = false
    else if above_threshold st B4_KEY then noteActive st 6 = true /\ noteActive st 2 = false
    else noteActive st 5 = false /\ noteActive st 6 = false
  else forall i, (i < 5)%nat -> noteActive st i = above_threshold st i.

(** [m] keeps the invariant [Inv]. *)
Definition preserves {A : Type} (Inv : State -> Prop) (m : M A) : Prop :=
  respects (fun a b _ => Inv a -> Inv b) m.

(** ** Scenarios

    Payloads and runs used to exercise the controller. The roll is either
    flat (0.0) or tilted (60.0, encoded 0x42700000, above the angle
    threshold). *)

Definition flat : N := 0.
Definition tilted : N := 0x42700000.

(** A well-formed payload carrying the roll with encoding [rollBits] and the
    given pressures (bytes the handler does not read are zero). *)
Definition be16 (p : N) : list byte :=
  match Byte.of_N (p / 256), Byte.of_N (p mod 256) with
  | Some hi, Some lo => [hi; lo]
  | _, _ => [x00; x00]
  end.

Definition le32 (w : N) : list byte :=
  List.map (fun k => match Byte.of_N ((w / 256 ^ N.of_nat k) mod 256) with
                     | Some b => b
                     | None => x00
                     end) (seq 0 4).

Definition payload (rollBits : N) (pressures : list N) : list byte :=
  [xab; xcd] ++ repeat x00 4 ++ le32 rollBits ++ repeat x00 4
  ++ flat_map be16 (firstn 25 (pressures ++ repeat 0%N 25)) ++ repeat x00 2.

(** Pressures with the given values at the given sensors, zero elsewhere. *)
Definition sensors (l : list (nat * N)) : list N :=
  fold_left (fun acc iv => set_nth 0%N (fst iv) (snd iv) acc) l (repeat 0%N 25).

(** Sensor 0 (middle C) pressed at 200, hand tilted. *)
Definition pressC : list byte := payload tilted (sensors [(0%nat, 200%N)]).

(** Combo key and sensor 1 pressed at 100: combo slot 5 (A4). *)
Definition comboA (roll : N) : list byte :=
  payload roll (sensors [(COMBO_KEY, 100%N); (A4_KEY, 100%N)]).

(** Combo key and sensor 2 pressed at 100: combo slot 6 (B4). *)
Definition comboB (roll : N) : list byte :=
  payload roll (sensors [(COMBO_KEY, 100%N); (B4_KEY, 100%N)]).

(** Every sensor at rest. *)
Definition released (roll : N) : list byte := payload roll (sensors []).

(** The state once sensor 0 has been pressed, hand tilted, at 1000 ms. *)
Definition holdingC : State := final (onNotify pressC 1000 initial).

(** The state once the A chord has been arpeggiated (combo slot 5, hand
    tilted, at 1000 ms) and every sensor has then gone to rest with the hand
    flat (at 1010 ms): the chord is still active, an arpeggio note sounds. *)
Definition lingering : State :=
  final (runAll [Notify (comboA tilted) 1000; Notify (released flat) 1010] initial).

(** The state once combo slot 6 (B4) has been pressed, hand flat, at
    1000 ms. *)
Definition holdingB : State := final (onNotify (comboB flat) 1000 initial).

(** The held press of sensor 0 after three notifications, the arpeggio on
    its third note; the same with the hand gone flat; and with the hand
    tilted again after the playback has seen it flat at 1900 ms. *)
Definition arpeggiating : State :=
  final (runAll (List.map (Notify pressC) [1000; 1300; 1600]) initial).

Definition handFlat : State :=
  with_sensors (float_of_bits 0) (sensors [(0%nat, 200%N)]) arpeggiating.

Definition handTilted : State :=
  with_sensors (float_at pressC 6) (sensors [(0%nat, 200%N)])
    (final (handleChordPlayback 1900 handFlat)).

(** * Properties *)

(** ** Arrays *)

Lemma nth_set_nth {A : Type} (d : A) (j : nat) (v : A) (l : list A) (i : nat) :
  nth i (set_nth d j v l) d = if (i =? j)%nat then v else nth i l d.
Proof.
  revert l i. induction j as [|j IH]; intros [|h t] [|i]; simpl; trivial;
    try (destruct i; reflexivity).
  rewrite IH. destruct (i =? j)%nat; trivial. destruct i; reflexivity.
Qed.

Lemma noteActive_with_noteActive st j b i :
  noteActive (with_noteActive j b st) i = if (i =? j)%nat then b else noteActive st i.
Proof. unfold noteActive, with_noteActive; simpl. apply nth_set_nth. Qed.

(** ** The monad *)

Lemma final_bind {A B : Type} (m : M A) (k : A -> M B) st :
  final (bind m k st) = final (k (value (m st)) (final (m st))).
Proof. reflexivity. Qed.

Lemma sent_bind {A B : Type} (m : M A) (k : A -> M B) st :
  sent (bind m k st) = sent (m st) ++ sent (k (value (m st)) (final (m st))).
Proof. reflexivity. Qed.

(** The log of a run is the logs of its inputs, one after the other. *)
Lemma runAll_outputs (ins : list Input) st :
  sent (runAll ins st) = concat (outputs ins st).
Proof.
  revert st. induction ins as [|input ins IH]; intros st; [reflexivity|].
  unfold runAll in *. cbn [forEach outputs concat]. rewrite sent_bind, IH. reflexivity.
Qed.

Section Respects.

Variable R : State -> State -> list Sent -> Prop.
Hypothesis R_refl : forall st, R st st [].
Hypothesis R_trans :
  forall a b c l1 l2, R a b l1 -> R b c l2 -> R a c (l1 ++ l2).

Lemma respects_ret {A : Type} (a : A) : respects R (ret a).
Proof. intros st. apply R_refl. Qed.

Lemma respects_skip : respects R skip.
Proof. apply respects_ret. Qed.

Lemma respects_get : respects R get.
Proof. intros st. apply R_refl. Qed.

Lemma respects_bind {A B : Type} (m : M A) (k : A -> M B) :
  respects R m -> (forall a, respects R (k a)) -> respects R (bind m k).
Proof.
  intros Hm Hk st. rewrite final_bind, sent_bind.
  eapply R_trans; [apply Hm | apply Hk].
Qed.

Lemma respects_when (c : bool) (m : M unit) : respects R m -> respects R (when c m).
Proof. intros Hm. destruct c; [exact Hm | apply respects_skip]. Qed.

Lemma respects_if {A : Type} (c : bool) (m1 m2 : M A) :
  respects R m1 -> respects R m2 -> respects R (if c then m1 else m2).
Proof. destruct c; trivial. Qed.

Lemma respects_forEach {A : Type} (l : list A) (body : A -> M unit) :
  (forall a, In a l -> respects R (body a)) -> respects R (forEach l body).
Proof.
  induction l as [|a l IH]; intros Hb; cbn [forEach].
  - apply respects_skip.
  - apply respects_bind.
    + apply Hb. now left.
    + intros _. apply IH. intros b Hin. apply Hb. now right.
Qed.

Lemma respects_modify (f : State -> State) :
  (forall st, R st (f st) []) -> respects R (modify f).
Proof. intros H st. apply H. Qed.

Lemma respects_send (s : Site) (m : MidiMsg) :
  (forall st, R st st [mkSent s m]) -> respects R (send s m).
Proof. intros H st. apply H. Qed.

End Respects.

(** Decomposition of a controller function along its control structure:
    [call] settles the calls that are not to be opened, [side] closes the
    two conditions on the relation, [leaf] the stores and the sends. *)
Ltac respects_steps_from call side leaf :=
  repeat first
    [ call
    | apply respects_skip; [ side ]
    | apply respects_get; [ side ]
    | apply respects_ret; [ side ]
    | apply respects_bind; [ side | | intros ? ]
    | apply respects_when; [ side | ]
    | apply respects_if
    | apply respects_forEach; [ side | side | intros ? ? ]
    | apply respects_modify; intros ?; leaf
    | apply respects_send; intros ?; leaf
    | leaf ].

Ltac respects_steps side leaf := respects_steps_from fail side leaf.

Ltac unfold_calls :=
  unfold handleControls, checkComboKeys, handleComboNotes, handleSingleNotes,
    singleNote, triggerChord, handleChordPlayback, checkSustain, allNotesOff,
    setChordType, stopCurrentChord, updateChordNotes, updateSensorData;
  cbv zeta.

Ltac unfold_leaves :=
  unfold slotOff, playNote, releaseNote, sendNoteOn, sendNoteOff, sendControlChange;
  cbv zeta.

Ltac keeps_side :=
  solve [ intros; reflexivity
        | intros ? ? ? ? ? H1 H2; cbv beta in H1, H2 |- *; congruence ].

(** [keeps f m] for an [m] whose stores all leave [f] alone. *)
Ltac keeps_all :=
  unfold keeps; unfold_calls; unfold_leaves;
  respects_steps keeps_side ltac:(reflexivity).

(** [sendsOnly P m] for a [P] that holds of every message sent. *)
Ltac sends_side :=
  solve [ intros; apply Forall_nil
        | intros ? ? ? ? ? H1 H2; apply Forall_app; split; assumption ].

Ltac sends_all :=
  unfold sendsOnly; unfold_calls; unfold_leaves;
  respects_steps sends_side
    ltac:(solve [ constructor;
                  [ hnf; simpl; intuition (discriminate || congruence) | constructor ]
                | constructor ]).

Lemma stopCurrentChord_keeps_notes : keeps notesActive stopCurrentChord.
Proof. keeps_all. Qed.

Lemma handleChordPlayback_keeps_notes T : keeps notesActive (handleChordPlayback T).
Proof. keeps_all. Qed.

Lemma checkSustain_keeps_chord T : keeps currentChord (checkSustain T).
Proof. keeps_all. Qed.

Lemma checkComboKeys_keeps_sustain T : keeps sustainActive (checkComboKeys T).
Proof. keeps_all. Qed.

Lemma checkComboKeys_no_sustain T :
  sendsOnly (fun e => site e <> SustainSite) (checkComboKeys T).
Proof. sends_all. Qed.

(** ** Stopping the chord *)

Lemma forEach_chordOffs (chord : list Z) st :
  forEach chord (fun note => sendNoteOff ChordStopSite note 0 1) st
  = mkRun tt st (chordOffs chord).
Proof.
  revert st. induction chord as [|n chord IH]; intros st; [reflexivity|].
  cbn [forEach]. unfold bind. rewrite IH. reflexivity.
Qed.

Lemma stopCurrentChord_active st :
  active (currentChord st) = true ->
  stopCurrentChord st
  = mkRun tt (stopped st)
      (if 0 <=? stopIndex st then chordOffs (CUSTOM_CHORDS (stopIndex st)) else []).
Proof.
  intros Hact. unfold stopCurrentChord, bind, get, when. simpl. rewrite Hact.
  destruct (0 <=? stopIndex st); simpl.
  - rewrite forEach_chordOffs. simpl. rewrite app_nil_r. reflexivity.
  - reflexivity.
Qed.

Lemma stopCurrentChord_inactive st :
  active (currentChord st) = false -> stopCurrentChord st = mkRun tt st [].
Proof.
  intros Hact. unfold stopCurrentChord, bind, get, when. simpl. rewrite Hact. reflexivity.
Qed.

Lemma pressed_nonzero st i : (0 <? pressure st i)%N = nonzero st i.
Proof.
  unfold nonzero. destruct (N.eqb_spec (pressure st i) 0) as [E|E].
  - rewrite E. reflexivity.
  - apply N.ltb_lt. lia.
Qed.

(** The index found by the scan of the code is the one the specification
    describes. *)
Lemma stopIndex_selection st :
  stopIndex st = match stopSelection st with
                 | Some k => Z.of_nat k
                 | None => -1
                 end.
Proof.
  unfold stopIndex, stopSelection, lastPressed.
  rewrite !pressed_nonzero.
  destruct (comboKeyActive st).
  - destruct (nonzero st A4_KEY); [reflexivity|].
    destruct (nonzero st B4_KEY); reflexivity.
  - cbn [seq fold_left filter]. rewrite !pressed_nonzero.
    destruct (nonzero st 0), (nonzero st 1), (nonzero st 2), (nonzero st 3),
      (nonzero st 4); reflexivity.
Qed.

Lemma scannedZero_selection st : scannedZero st -> stopSelection st = None.
Proof.
  unfold scannedZero, stopSelection, nonzero, A4_KEY, B4_KEY.
  destruct (comboKeyActive st).
  - intros [H1 H2]. rewrite H1, H2. reflexivity.
  - intros H. cbn [seq filter].
    rewrite (H 0%nat), (H 1%nat), (H 2%nat), (H 3%nat), (H 4%nat) by lia.
    reflexivity.
Qed.

(** What a chord stop sends, whether a chord is active or not. *)
Lemma stopCurrentChord_sent st : sent (stopCurrentChord st) = chordRelease st.
Proof.
  unfold chordRelease. destruct (active (currentChord st)) eqn:Hact.
  - rewrite (stopCurrentChord_active st Hact). cbn [sent].
    rewrite stopIndex_selection.
    destruct (stopSelection st) as [k|]; [|reflexivity].
    destruct (Z.leb_spec 0 (Z.of_nat k)); [reflexivity | lia].
  - rewrite stopCurrentChord_inactive by exact Hact. reflexivity.
Qed.

(** C5. When the active chord is stopped, the note-offs sent are those of the
    chord set of the slot selected by the pressures: with the combo latch
    active, combo slot 5 is looked at before combo slot 6; otherwise the last
    of the single-note slots 0..4, scanned in ascending order, with a nonzero
    pressure. *)
Theorem stop_selects_by_pressure (st : State) :
  active (currentChord st) = true ->
  sent (stopCurrentChord st)
  = match stopSelection st with
    | Some k => chordOffs (CUSTOM_CHORDS (Z.of_nat k))
    | None => []
    end.
Proof.
  intros Hact. rewrite stopCurrentChord_sent. unfold chordRelease.
  rewrite Hact. reflexivity.
Qed.

(** C10. When the chord is stopped while every sensor the stop scans reads
    zero (sensors 1 and 2 with the combo latch active, sensors 0..4
    otherwise), the chord is made inactive and the arpeggio cursor goes back
    to step 0, but nothing is sent: no note-off reaches a chord or arpeggio
    note that is sounding. *)
Theorem stop_with_zero_pressure_is_silent (st : State) :
  active (currentChord st) = true ->
  scannedZero st ->
  sent (stopCurrentChord st) = []
  /\ active (currentChord (final (stopCurrentChord st))) = false
  /\ currentArpeggioStep (final (stopCurrentChord st)) = 0
  /\ final (stopCurrentChord st) = stopped st.
Proof.
  intros Hact Hzero.
  pose proof (stopCurrentChord_sent st) as Hsent. unfold chordRelease in Hsent.
  rewrite Hact, (scannedZero_selection st Hzero) in Hsent.
  rewrite (stopCurrentChord_active st Hact) in *. cbn [sent final] in *.
  repeat split; assumption || reflexivity.
Qed.

(** ** Rejected payloads *)

Lemma byte_to_N_inj (a b : byte) : Byte.to_N a = Byte.to_N b -> a = b.
Proof.
  intros E. pose proof (Byte.of_to_N a) as Ha. rewrite E, Byte.of_to_N in Ha.
  congruence.
Qed.

(** C9. A notification payload shorter than 66 bytes, or whose first two
    bytes are not 0xAB 0xCD, is dropped: the handler returns with the state
    as it was (pressures, roll, note flags, chord, sustain and all the rest)
    and with nothing sent. *)
Theorem malformed_payload_dropped (pData : list byte) (T : Z) (st : State) :
  (length pData < 66)%nat
  \/ nth 0 pData x00 <> xab
  \/ nth 1 pData x00 <> xcd ->
  onNotify pData T st = mkRun tt st [].
Proof.
  intros H. unfold onNotify.
  assert (Hrej : rejected pData = true).
  { unfold rejected, byte_at. destruct H as [H | [H | H]].
    - apply Nat.ltb_lt in H. rewrite H. reflexivity.
    - apply orb_true_iff. left. apply orb_true_iff. right.
      apply negb_true_iff, N.eqb_neq. intros E. apply H.
      apply byte_to_N_inj. exact E.
    - apply orb_true_iff. right.
      apply negb_true_iff, N.eqb_neq. intros E. apply H.
      apply byte_to_N_inj. exact E. }
  rewrite Hrej. reflexivity.
Qed.

(** The selection at work: with sensor 0 held at 200 the stop sends the note-offs of
    the C chord set. *)
Lemma stop_selects_by_pressure_witness :
  active (currentChord holdingC) = true
  /\ sent (stopCurrentChord holdingC) = chordOffs [C4; G4; C5; E5].
Proof.
  split; [reflexivity|].
  exact (stop_selects_by_pressure holdingC eq_refl).
Defined.

Lemma lingering_scannedZero : scannedZero lingering.
Proof.
  unfold scannedZero. change (comboKeyActive lingering) with false. cbv iota.
  intros i Hi. do 5 (destruct i as [|i]; [reflexivity|]). lia.
Defined.

(** The silent stop at work: the A chord was arpeggiated, the sensors are at
    rest, and stopping the chord sends nothing. *)
Lemma stop_with_zero_pressure_is_silent_witness :
  active (currentChord lingering) = true
  /\ sent (stopCurrentChord lingering) = []
  /\ active (currentChord (final (stopCurrentChord lingering))) = false
  /\ currentArpeggioStep (final (stopCurrentChord lingering)) = 0
  /\ final (stopCurrentChord lingering) = stopped lingering.
Proof.
  split; [reflexivity|].
  exact (stop_with_zero_pressure_is_silent lingering eq_refl lingering_scannedZero).
Defined.

(** A payload cut short after its header is dropped. *)
Lemma malformed_payload_dropped_witness :
  onNotify [xab; xcd; x00] 1000 holdingC = mkRun tt holdingC [].
Proof.
  apply (malformed_payload_dropped [xab; xcd; x00] 1000 holdingC).
  left. simpl. lia.
Defined.

(** ** Velocity *)

Lemma triggerChord_keeps_notes i T : keeps notesActive (triggerChord i T).
Proof. keeps_all. Qed.

Lemma playNote_fresh i v st :
  noteActive st i = false ->
  sent (playNote i v st) = [mkSent (SlotSite i) (NoteOn (NOTE_MAPPING i) v 1)].
Proof.
  intros H. unfold playNote, bind, get, when. simpl. rewrite H. reflexivity.
Qed.

Lemma map_long_velocity (x : Z) :
  50 <= x <= 1000 ->
  map_long x PRESSURE_THRESHOLD 1000 70 127 = clamp_map x PRESSURE_THRESHOLD 1000 70 127
  /\ 70 <= map_long x PRESSURE_THRESHOLD 1000 70 127 <= 127
  /\ 950 * (map_long x PRESSURE_THRESHOLD 1000 70 127 - 70) <= 57 * (x - 50)
     < 950 * (map_long x PRESSURE_THRESHOLD 1000 70 127 - 70 + 1).
Proof.
  intros Hx. unfold map_long, clamp_map, PRESSURE_THRESHOLD.
  change (127 - 70) with 57. change (1000 - 50) with 950.
  rewrite Z.quot_div_nonneg by lia.
  pose proof (Z.div_mod ((x - 50) * 57) 950 ltac:(lia)) as Hdm.
  pose proof (Z.mod_pos_bound ((x - 50) * 57) 950 ltac:(lia)) as Hmod.
  set (q := (x - 50) * 57 / 950) in *.
  assert (0 <= q <= 57) by nia.
  repeat split; lia.
Qed.

(** C7, as the code has it. For a pressure [p] at or above the threshold 50,
    and so for every pressure that triggers a note, the velocity is the
    linear map of [min(p, 1000)] from [50, 1000] onto [70, 127], with the
    quotient truncated, and lies within the output bounds; it is the
    velocity of the note-on that the trigger sends, for a single-note slot
    and for both combo slots. Pressure 50 gives 70, pressure 1000 gives 127,
    pressure 525 gives 98 and pressure 200 gives 79. *)
Theorem velocity_linear (st : State) (i : nat) (T : Z) :
  let p := pressure st i in
  let v := calculateVelocity i st in
  ((50 <= p)%N ->
     v = velocityOf p
     /\ 70 <= v <= 127
     /\ 950 * (v - 70) <= 57 * (Z.min (Z.of_N p) 1000 - 50) < 950 * (v - 70 + 1))
  /\ (above_threshold st i = true -> noteActive st i = false ->
      In (mkSent (SlotSite i) (NoteOn (NOTE_MAPPING i) (velocityOf p) 1))
         (sent (singleNote T i st)))
  /\ (i = A4_KEY -> above_threshold st i = true -> noteActive st 5 = false ->
      In (mkSent (SlotSite 5) (NoteOn (NOTE_MAPPING 5) (velocityOf p) 1))
         (sent (handleComboNotes T st)))
  /\ (i = B4_KEY -> above_threshold st A4_KEY = false ->
      above_threshold st i = true -> noteActive st 6 = false ->
      In (mkSent (SlotSite 6) (NoteOn (NOTE_MAPPING 6) (velocityOf p) 1))
         (sent (handleComboNotes T st)))
  /\ (p = 50%N -> v = 70)
  /\ (p = 1000%N -> v = 127)
  /\ (p = 525%N -> v = 98)
  /\ (p = 200%N -> v = 79).
Proof.
  intros p v.
  assert (Hlin : (50 <= p)%N ->
     v = velocityOf p
     /\ 70 <= v <= 127
     /\ 950 * (v - 70) <= 57 * (Z.min (Z.of_N p) 1000 - 50) < 950 * (v - 70 + 1)).
  { intros Hp. unfold v, calculateVelocity, velocityOf. fold p.
    apply map_long_velocity. lia. }
  assert (Habove : forall k, above_threshold st k = true ->
            calculateVelocity k st = velocityOf (pressure st k)).
  { intros k Hk. unfold above_threshold, PRESSURE_THRESHOLD in Hk.
    apply Z.ltb_lt in Hk. unfold calculateVelocity, velocityOf.
    apply map_long_velocity. lia. }
  split; [exact Hlin|].
  split.
  { intros Ha Hn. unfold singleNote. rewrite sent_bind. cbn [get value final sent app].
    rewrite Ha. cbv zeta. rewrite sent_bind. apply in_or_app. right.
    rewrite playNote_fresh.
    - rewrite (Habove i Ha). now left.
    - unfold noteActive. rewrite (triggerChord_keeps_notes i T st). exact Hn. }
  split.
  { intros -> Ha Hn. unfold handleComboNotes. rewrite sent_bind.
    cbn [get value final sent app]. rewrite Ha. cbv zeta.
    rewrite !sent_bind. apply in_or_app. right. apply in_or_app. left.
    rewrite playNote_fresh.
    - rewrite (Habove A4_KEY Ha). now left.
    - unfold noteActive. rewrite (triggerChord_keeps_notes 5 T st). exact Hn. }
  split.
  { intros -> Hna Ha Hn. unfold handleComboNotes. rewrite sent_bind.
    cbn [get value final sent app]. rewrite Hna, Ha. cbv zeta.
    rewrite !sent_bind. apply in_or_app. right. apply in_or_app. left.
    rewrite playNote_fresh.
    - rewrite (Habove B4_KEY Ha). now left.
    - unfold noteActive. rewrite (triggerChord_keeps_notes 6 T st). exact Hn. }
  unfold v, calculateVelocity. fold p.
  repeat split; intros ->; reflexivity.
Qed.

(** The velocity at work: sensor 0 first pressed at 200 sends middle C with
    velocity 79. *)
Lemma velocity_linear_witness :
  calculateVelocity 0 (with_sensors (S754_zero false) (sensors [(0%nat, 200%N)]) initial) = 79
  /\ In (mkSent (SlotSite 0) (NoteOn C4 79 1))
        (sent (singleNote 1000 0
                 (with_sensors (S754_zero false) (sensors [(0%nat, 200%N)]) initial))).
Proof.
  pose proof (velocity_linear
                (with_sensors (S754_zero false) (sensors [(0%nat, 200%N)]) initial)
                0 1000) as H.
  cbv zeta in H.
  destruct H as (_ & Hsend & _ & _ & _ & _ & _ & H200).
  split.
  - exact (H200 eq_refl).
  - exact (Hsend eq_refl eq_refl).
Defined.

(** Pressure 200 does not give a velocity of about 77: the interpolation is
    exact there, 57 * 150 = 950 * 9, and gives 79. *)
Lemma velocity_at_200_is_not_77 :
  pressure holdingC 0 = 200%N
  /\ calculateVelocity 0 holdingC = 79
  /\ 57 * (200 - 50) = 950 * (79 - 70)
  /\ ~ (Z.abs (calculateVelocity 0 holdingC - 77) <= 1)
  /\ In (mkSent (SlotSite 0) (NoteOn C4 79 1)) (sent (onNotify pressC 1000 initial)).
Proof.
  repeat split; try reflexivity.
  - change (calculateVelocity 0 holdingC) with 79. simpl. lia.
  - vm_compute. now left.
Qed.

(** ** The arpeggio *)

(** C3, on the code. Sensor 0 is held with the hand tilted and a notification
    comes every 300 ms. The arpeggio walks through the pitches 60, 67, 72 and
    76, each step turning the note of the step before off first. On the fifth
    step the cursor has wrapped to 0: pitch 60 is sent again and no note-off
    is sent for pitch 76, the note of the fourth step. *)
Theorem arpeggio_wrap_skips_note_off :
  List.map wire
    (outputs (List.map (Notify pressC) [1000; 1300; 1600; 1900; 2200]) initial)
  = [ [NoteOn C4 79 1; NoteOn C4 100 1];
      [NoteOff C4 0 1; NoteOn G4 100 1];
      [NoteOff G4 0 1; NoteOn C5 100 1; ControlChange 64 127 1];
      [NoteOff C5 0 1; NoteOn E5 100 1];
      [NoteOn C4 100 1] ]
  /\ currentArpeggioStep
       (final (runAll (List.map (Notify pressC) [1000; 1300; 1600; 1900]) initial)) = 0
  /\ sent (handleChordPlayback 2200
             (final (runAll (List.map (Notify pressC) [1000; 1300; 1600; 1900]) initial)))
     = [mkSent ArpeggioSite (NoteOn C4 100 1)].
Proof. repeat split; vm_compute; reflexivity. Qed.

(** ** The main loop *)

Lemma loop_quiet cmd :
  sendsOnly (fun e => site e <> ArpeggioSite /\ msg e <> ControlChange 64 127 1)
    (loop cmd).
Proof.
  destruct cmd as [[| t | ms |]|]; unfold loop; sends_all.
Qed.

(** C1, as the code has it. A pass of the main loop evaluates neither the
    arpeggio nor the sustain: with no command waiting it leaves the state as
    it is and sends nothing, and whatever the commands, no sequence of passes
    sends an arpeggio message or a sustain-on. The arpeggio step and the
    sustain are evaluated by the notification handler alone, once for each
    payload that is let through. *)
Theorem loop_evaluates_nothing :
  (forall st, loop None st = mkRun tt st [])
  /\ (forall n st, outputs (repeat (Loop None) n) st = repeat [] n
                   /\ final (runAll (repeat (Loop None) n) st) = st)
  /\ (forall cmds st,
        Forall (fun e => site e <> ArpeggioSite /\ msg e <> ControlChange 64 127 1)
          (sent (runAll (List.map Loop cmds) st)))
  /\ (forall pData T st,
        rejected pData = false ->
        onNotify pData T st
        = (updateSensorData (float_at pData 6) (pressures_of pData) ;;
           checkComboKeys T ;; handleChordPlayback T ;; checkSustain T) st).
Proof.
  split; [reflexivity|]. split; [|split].
  - induction n as [|n IH]; intros st; [split; reflexivity|].
    destruct (IH st) as [Ho Hf]. cbn [repeat outputs react loop].
    split.
    + cbn [skip ret sent final]. rewrite Ho. reflexivity.
    + exact Hf.
  - intros cmds st. unfold runAll.
    apply (respects_forEach (fun _ _ log => Forall _ log)); [sends_side | sends_side |].
    intros i Hin. apply in_map_iff in Hin. destruct Hin as (cmd & <- & _).
    apply loop_quiet.
  - intros pData T st Hrej. unfold onNotify. rewrite Hrej. reflexivity.
Qed.

Lemma loop_evaluates_nothing_witness :
  onNotify pressC 2000 holdingC
  = (updateSensorData (float_at pressC 6) (pressures_of pressC) ;;
     checkComboKeys 2000 ;; handleChordPlayback 2000 ;; checkSustain 2000) holdingC.
Proof.
  destruct loop_evaluates_nothing as (_ & _ & _ & H).
  apply (H pressC 2000 holdingC). reflexivity.
Defined.

(** The pause: sensor 0 was pressed, hand tilted, at 1000 ms, and no notification
    follows. One second later the next arpeggio step and the sustain are
    due, and an evaluation would send them; a hundred passes of the main loop
    send nothing and leave the state as it was. *)
Lemma loop_pause_is_silent :
  active (currentChord holdingC) = true
  /\ wire (sent ((handleChordPlayback 2000 ;; checkSustain 2000) holdingC))
     = [NoteOff C4 0 1; NoteOn G4 100 1; ControlChange 64 127 1]
  /\ outputs (repeat (Loop None) 100) holdingC = repeat [] 100
  /\ final (runAll (repeat (Loop None) 100) holdingC) = holdingC.
Proof. repeat split; vm_compute; reflexivity. Qed.

(** ** All notes off *)

Lemma slotOff_run i st :
  slotOff i st
  = if noteActive st i then mkRun tt (with_noteActive i false st) [slotNoteOff i]
    else mkRun tt st [].
Proof.
  unfold slotOff, bind, get, when. simpl. destruct (noteActive st i); reflexivity.
Qed.

Lemma slotOff_flag i st j :
  noteActive (final (slotOff i st)) j = if (j =? i)%nat then false else noteActive st j.
Proof.
  rewrite slotOff_run. destruct (noteActive st i) eqn:E; cbn [final].
  - apply noteActive_with_noteActive.
  - destruct (Nat.eqb_spec j i) as [->|]; [exact E | reflexivity].
Qed.

Lemma slotLoop_flag l st j :
  noteActive (final (forEach l slotOff st)) j
  = if existsb (Nat.eqb j) l then false else noteActive st j.
Proof.
  revert st. induction l as [|i l IH]; intros st; cbn [forEach existsb].
  - reflexivity.
  - rewrite final_bind, IH, slotOff_flag.
    destruct (j =? i)%nat; cbn [orb]; [|reflexivity].
    destruct (existsb (Nat.eqb j) l); reflexivity.
Qed.

Lemma slotLoop_sent l st :
  NoDup l ->
  sent (forEach l slotOff st)
  = flat_map (fun i => if noteActive st i then [slotNoteOff i] else []) l.
Proof.
  intros Hnd. revert st. induction Hnd as [|i l Hni Hnd IH]; intros st; cbn [forEach flat_map].
  - reflexivity.
  - rewrite sent_bind, IH. f_equal.
    + rewrite slotOff_run. destruct (noteActive st i); reflexivity.
    + rewrite !flat_map_concat_map. f_equal. apply map_ext_in. intros j Hj.
      rewrite slotOff_flag. destruct (Nat.eqb_spec j i) as [->|]; [contradiction | reflexivity].
Qed.

Lemma slotLoop_keeps_sustain l : keeps sustainActive (forEach l slotOff).
Proof. keeps_all. Qed.

Lemma slotLoop_keeps_chord l : keeps currentChord (forEach l slotOff).
Proof. keeps_all. Qed.

Lemma slotLoop_keeps_combo l : keeps comboKeyActive (forEach l slotOff).
Proof. keeps_all. Qed.

Lemma slotLoop_keeps_pressure l : keeps pressureData (forEach l slotOff).
Proof. keeps_all. Qed.

Lemma stopSelection_ext a b :
  comboKeyActive a = comboKeyActive b -> pressureData a = pressureData b ->
  stopSelection a = stopSelection b.
Proof.
  unfold stopSelection, nonzero, pressure. intros -> ->. reflexivity.
Qed.

Lemma stopCurrentChord_keeps_sustain : keeps sustainActive stopCurrentChord.
Proof. keeps_all. Qed.

Lemma stopCurrentChord_keeps_combo : keeps comboKeyActive stopCurrentChord.
Proof. keeps_all. Qed.

Lemma stopCurrentChord_stops st :
  active (currentChord (final (stopCurrentChord st))) = false.
Proof.
  destruct (active (currentChord st)) eqn:Hact.
  - rewrite stopCurrentChord_active by exact Hact. reflexivity.
  - rewrite stopCurrentChord_inactive by exact Hact. exact Hact.
Qed.

Lemma allNotesOff_final st :
  final (allNotesOff st) = final (stopCurrentChord (beforeStop st)).
Proof.
  unfold allNotesOff, beforeStop. rewrite !final_bind. cbn [get value final].
  destruct (sustainActive (final (forEach (seq 0 7) slotOff st))); reflexivity.
Qed.

Lemma beforeStop_facts st :
  (forall j, noteActive (beforeStop st) j
             = if existsb (Nat.eqb j) (seq 0 7) then false else noteActive st j)
  /\ sustainActive (beforeStop st) = false
  /\ currentChord (beforeStop st) = currentChord st
  /\ comboKeyActive (beforeStop st) = comboKeyActive st
  /\ pressureData (beforeStop st) = pressureData st.
Proof.
  unfold beforeStop.
  pose proof (slotLoop_keeps_chord (seq 0 7) st) as Hc.
  pose proof (slotLoop_keeps_combo (seq 0 7) st) as Hk.
  pose proof (slotLoop_keeps_pressure (seq 0 7) st) as Hp.
  pose proof (fun j => slotLoop_flag (seq 0 7) st j) as Hf.
  cbv beta in Hc, Hk, Hp.
  destruct (sustainActive (final (forEach (seq 0 7) slotOff st))) eqn:Hs;
    repeat split; trivial.
Qed.

Lemma allNotesOff_sent st :
  sent (allNotesOff st) = slotOffs st ++ sustainRelease st ++ chordRelease st.
Proof.
  pose proof (beforeStop_facts st) as (_ & _ & Hc & Hk & Hp).
  unfold allNotesOff. rewrite !sent_bind, ?final_bind. cbn [get value final sent app].
  rewrite slotLoop_sent by apply seq_NoDup. fold (slotOffs st). f_equal.
  pose proof (slotLoop_keeps_sustain (seq 0 7) st) as Hs. cbv beta in Hs.
  unfold sustainRelease. rewrite <- Hs.
  unfold beforeStop in Hc, Hk, Hp.
  destruct (sustainActive (final (forEach (seq 0 7) slotOff st)));
    cbn [when skip ret bind sent final app send sendControlChange modify];
    rewrite stopCurrentChord_sent; unfold chordRelease;
    rewrite Hc, (stopSelection_ext _ st Hk Hp); reflexivity.
Qed.

Lemma chordOffs_no_slot i chord : filter (isSlotOff i) (chordOffs chord) = [].
Proof. induction chord as [|n chord IH]; [reflexivity | exact IH]. Qed.

Lemma chordOffs_no_sustain chord : filter fromSustain (chordOffs chord) = [].
Proof. induction chord as [|n chord IH]; [reflexivity | exact IH]. Qed.

Lemma chordRelease_no_slot i st : filter (isSlotOff i) (chordRelease st) = [].
Proof.
  unfold chordRelease. destruct (active (currentChord st)); [|reflexivity].
  destruct (stopSelection st); [apply chordOffs_no_slot | reflexivity].
Qed.

Lemma chordRelease_no_sustain st : filter fromSustain (chordRelease st) = [].
Proof.
  unfold chordRelease. destruct (active (currentChord st)); [|reflexivity].
  destruct (stopSelection st); [apply chordOffs_no_sustain | reflexivity].
Qed.

Lemma slotOffs_count i l st :
  NoDup l ->
  length (filter (isSlotOff i)
            (flat_map (fun j => if noteActive st j then [slotNoteOff j] else []) l))
  = if noteActive st i && existsb (Nat.eqb i) l then 1%nat else 0%nat.
Proof.
  intros Hnd. induction Hnd as [|j l Hnj Hnd IH]; cbn [flat_map existsb].
  - rewrite andb_false_r. reflexivity.
  - rewrite filter_app, length_app, IH.
    destruct (Nat.eqb_spec i j) as [->|Hij].
    + assert (Hex : existsb (Nat.eqb j) l = false).
      { destruct (existsb (Nat.eqb j) l) eqn:E; [|reflexivity].
        apply existsb_exists in E. destruct E as (x & Hx & Hxj).
        apply Nat.eqb_eq in Hxj. subst x. contradiction. }
      rewrite Hex, andb_false_r. cbn [orb].
      destruct (noteActive st j); cbn; rewrite ?Nat.eqb_refl; reflexivity.
    + cbn [orb]. destruct (noteActive st j); cbn [filter length Nat.add]; [|reflexivity].
      unfold isSlotOff, slotNoteOff; cbn [site msg].
      destruct (Nat.eqb_spec j i); [congruence | reflexivity].
Qed.

Lemma slotOffs_no_sustain st : filter fromSustain (slotOffs st) = [].
Proof.
  unfold slotOffs. induction (seq 0 7) as [|j l IH]; [reflexivity|].
  cbn [flat_map]. rewrite filter_app, IH, app_nil_r.
  destruct (noteActive st j); reflexivity.
Qed.

Lemma allNotesOff_flags st i :
  existsb (Nat.eqb i) (seq 0 7) = true ->
  noteActive (final (allNotesOff st)) i = false.
Proof.
  intros Hi. rewrite allNotesOff_final. unfold noteActive.
  rewrite (stopCurrentChord_keeps_notes (beforeStop st)).
  pose proof (beforeStop_facts st) as (Hf & _). specialize (Hf i).
  unfold noteActive in Hf. rewrite Hf, Hi. reflexivity.
Qed.

(** C4, as the code has it. From every state, [allNotesOff] sends one note-off
    for each note slot whose active flag is set, then one sustain-off when
    the sustain is asserted and none otherwise, then the note-offs of the
    chord set that the stop selects from the pressures when a chord is active:
    none when no scanned sensor reads above zero. It leaves the note flags,
    the sustain flag and the chord flag cleared and the combo latch as it
    was, and a second call right after sends nothing. *)
Theorem all_notes_off_clears (st : State) :
  sent (allNotesOff st) = slotOffs st ++ sustainRelease st ++ chordRelease st
  /\ Forall (fun i => length (filter (isSlotOff i) (sent (allNotesOff st)))
                      = if noteActive st i then 1%nat else 0%nat) (seq 0 7)
  /\ length (filter fromSustain (sent (allNotesOff st)))
     = (if sustainActive st then 1%nat else 0%nat)
  /\ Forall (fun i => noteActive (final (allNotesOff st)) i = false) (seq 0 7)
  /\ sustainActive (final (allNotesOff st)) = false
  /\ active (currentChord (final (allNotesOff st))) = false
  /\ comboKeyActive (final (allNotesOff st)) = comboKeyActive st
  /\ sent (allNotesOff (final (allNotesOff st))) = [].
Proof.
  assert (Hflags : Forall (fun i => noteActive (final (allNotesOff st)) i = false) (seq 0 7)).
  { apply Forall_forall. intros i Hi. apply allNotesOff_flags.
    apply existsb_exists. exists i. split; [exact Hi | apply Nat.eqb_refl]. }
  assert (Hsus : sustainActive (final (allNotesOff st)) = false).
  { rewrite allNotesOff_final, (stopCurrentChord_keeps_sustain (beforeStop st)).
    apply beforeStop_facts. }
  assert (Hact : active (currentChord (final (allNotesOff st))) = false).
  { rewrite allNotesOff_final. apply stopCurrentChord_stops. }
  split; [apply allNotesOff_sent|].
  split.
  { apply Forall_forall. intros i Hi. rewrite allNotesOff_sent.
    rewrite !filter_app, !length_app, chordRelease_no_slot.
    unfold slotOffs. rewrite slotOffs_count by apply seq_NoDup.
    assert (Hex : existsb (Nat.eqb i) (seq 0 7) = true).
    { apply existsb_exists. exists i. split; [exact Hi | apply Nat.eqb_refl]. }
    rewrite Hex, andb_true_r.
    unfold sustainRelease. destruct (sustainActive st), (noteActive st i); reflexivity. }
  split.
  { rewrite allNotesOff_sent.
    rewrite !filter_app, !length_app, chordRelease_no_sustain, slotOffs_no_sustain.
    unfold sustainRelease. destruct (sustainActive st); reflexivity. }
  split; [exact Hflags|]. split; [exact Hsus|]. split; [exact Hact|].
  split.
  { rewrite allNotesOff_final.
    rewrite (stopCurrentChord_keeps_combo (beforeStop st)). apply beforeStop_facts. }
  rewrite allNotesOff_sent.
  unfold slotOffs, sustainRelease, chordRelease. rewrite Hsus, Hact.
  cbn [seq flat_map]. rewrite Forall_forall in Hflags.
  rewrite !Hflags by (simpl; tauto). reflexivity.
Qed.

(** The chord that [allNotesOff] does not release. The A chord is arpeggiated
    from combo slot 5 with the hand tilted, A3 sounds; then every sensor goes
    to rest with the hand flat, which leaves the chord active; then the link
    drops. [allNotesOff] finds the chord active and sends nothing for it: no
    note-off for A3 is ever sent. *)
Lemma all_notes_off_leaves_chord_note :
  active (currentChord lingering) = true
  /\ sent (allNotesOff lingering) = []
  /\ List.map wire
       (outputs [Notify (comboA tilted) 1000; Notify (released flat) 1010; Disconnect]
          initial)
     = [ [NoteOn A4 73 1; NoteOn A3 100 1]; [NoteOff A4 0 1]; [] ].
Proof. repeat split; vm_compute; reflexivity. Qed.

(** ** No second note-on while a slot sounds *)

Lemma alternates_app i on l1 l2 :
  alternates i on (l1 ++ l2)
  = match alternates i on l1 with
    | Some b => alternates i b l2
    | None => None
    end.
Proof.
  revert on. induction l1 as [|e l1 IH]; intros on; cbn [alternates app].
  - reflexivity.
  - destruct (isSlotOn i e); [destruct on; [reflexivity | apply IH]|].
    destruct (isSlotOff i e); apply IH.
Qed.

(** While the slot sounds, a log that is read through holds a note-off for
    the slot before any note-on for it. *)
Lemma alternates_sounding i l2 e2 l3 b :
  alternates i true (l2 ++ e2 :: l3) = Some b ->
  isSlotOn i e2 = true ->
  exists e, In e l2 /\ isSlotOff i e = true.
Proof.
  induction l2 as [|e l2 IH]; cbn [alternates app]; intros Halt Hon.
  - rewrite Hon in Halt. discriminate.
  - destruct (isSlotOn i e); [discriminate|].
    destruct (isSlotOff i e) eqn:Hoff.
    + exists e. split; [now left | exact Hoff].
    + destruct (IH Halt Hon) as (x & Hx & Hxoff). exists x. split; [now right | exact Hxoff].
Qed.

Lemma alternates_no_double i on l1 e1 l2 e2 l3 b :
  alternates i on (l1 ++ e1 :: l2 ++ e2 :: l3) = Some b ->
  isSlotOn i e1 = true ->
  isSlotOn i e2 = true ->
  exists e, In e l2 /\ isSlotOff i e = true.
Proof.
  intros Halt H1 H2. rewrite alternates_app in Halt.
  destruct (alternates i on l1) as [b1|]; [|discriminate].
  cbn [alternates] in Halt. rewrite H1 in Halt.
  destruct b1; [discriminate|].
  exact (alternates_sounding i l2 e2 l3 b Halt H2).
Qed.

Section Tracks.

Variable i : nat.

Lemma tracked_refl st : tracked i st st [].
Proof. reflexivity. Qed.

Lemma tracked_trans a b c l1 l2 :
  tracked i a b l1 -> tracked i b c l2 -> tracked i a c (l1 ++ l2).
Proof.
  unfold tracked. intros H1 H2. rewrite alternates_app, H1. exact H2.
Qed.

Lemma playNote_tracked j v : respects (tracked i) (playNote j v).
Proof.
  intros st. unfold tracked, playNote, bind, get, when. simpl.
  destruct (noteActive st j) eqn:Hj; simpl; [reflexivity|].
  rewrite noteActive_with_noteActive. unfold isSlotOn, isSlotOff. simpl.
  rewrite (Nat.eqb_sym i j).
  destruct (Nat.eqb_spec j i) as [->|]; [rewrite Hj|]; reflexivity.
Qed.

Lemma releaseNote_tracked j : respects (tracked i) (releaseNote j).
Proof.
  intros st. unfold tracked, releaseNote, bind, get, when. simpl.
  destruct (noteActive st j) eqn:Hj; simpl; [|reflexivity].
  rewrite noteActive_with_noteActive. unfold isSlotOn, isSlotOff. simpl.
  rewrite (Nat.eqb_sym i j).
  destruct (Nat.eqb_spec j i); reflexivity.
Qed.

Lemma slotOff_tracked j : respects (tracked i) (slotOff j).
Proof. exact (releaseNote_tracked j). Qed.

Ltac tracked_side := solve [ exact tracked_refl | exact tracked_trans ].

Ltac tracked_call :=
  first [ apply playNote_tracked
        | apply releaseNote_tracked
        | apply slotOff_tracked ].

Ltac tracked_all :=
  unfold_calls; unfold sendNoteOn, sendNoteOff, sendControlChange;
  respects_steps_from tracked_call tracked_side ltac:(reflexivity).

Lemma handleControls_tracked T : respects (tracked i) (handleControls T).
Proof. tracked_all. Qed.

Lemma allNotesOff_tracked : respects (tracked i) allNotesOff.
Proof. tracked_all. Qed.

Lemma react_tracked (input : Input) : respects (tracked i) (react input).
Proof.
  destruct input as [pData T | | [[| t | ms |]|]]; cbn [react].
  - unfold onNotify. apply respects_if; [tracked_all|].
    cbv zeta. apply respects_bind; [tracked_side | tracked_all |].
    intros _. apply handleControls_tracked.
  - apply allNotesOff_tracked.
  - apply allNotesOff_tracked.
  - unfold loop. tracked_all.
  - unfold loop. tracked_all.
  - unfold loop. tracked_all.
  - unfold loop. tracked_all.
Qed.

Lemma runAll_tracked (ins : list Input) : respects (tracked i) (runAll ins).
Proof.
  unfold runAll. apply respects_forEach; [tracked_side | tracked_side |].
  intros input _. apply react_tracked.
Qed.

End Tracks.

(** C8. Over every sequence of inputs (notifications, disconnections and
    passes of the main loop) from every state, and for every slot, two
    note-ons sent for the slot are separated by a note-off sent for the
    slot. *)
Theorem no_second_note_on (ins : list Input) (st : State) (i : nat)
    (l1 l2 l3 : list Sent) (e1 e2 : Sent) :
  sent (runAll ins st) = l1 ++ e1 :: l2 ++ e2 :: l3 ->
  isSlotOn i e1 = true ->
  isSlotOn i e2 = true ->
  exists e, In e l2 /\ isSlotOff i e = true.
Proof.
  intros Hlog H1 H2.
  pose proof (runAll_tracked i ins st) as Htr. unfold tracked in Htr.
  rewrite Hlog in Htr.
  exact (alternates_no_double i _ l1 e1 l2 e2 l3 _ Htr H1 H2).
Qed.

(** The separation at work: sensor 0 pressed, let go and pressed again. *)
Lemma no_second_note_on_witness :
  exists e,
    In e [mkSent ArpeggioSite (NoteOn C4 100 1); mkSent (SlotSite 0) (NoteOff C4 0 1)]
    /\ isSlotOff 0 e = true.
Proof.
  apply (no_second_note_on
           [Notify pressC 1000; Notify (released tilted) 1300; Notify pressC 1600]
           initial 0
           []
           [mkSent ArpeggioSite (NoteOn C4 100 1); mkSent (SlotSite 0) (NoteOff C4 0 1)]
           [mkSent ArpeggioSite (NoteOn C4 100 1)]
           (mkSent (SlotSite 0) (NoteOn C4 79 1))
           (mkSent (SlotSite 0) (NoteOn C4 79 1))); reflexivity.
Defined.

(** ** Sustain *)

Lemma ulong_sub_millis T T0 :
  0 <= T - T0 < ULONG_MOD -> ulong_sub (millis T) (millis T0) = T - T0.
Proof.
  intros H. unfold ulong_sub, millis, to_ulong.
  rewrite <- Zminus_mod. apply Z.mod_small. exact H.
Qed.

Lemma checkSustain_run T st :
  checkSustain T st
  = if active (currentChord st) then
      let shouldSustain := 300 <? ulong_sub (millis T) (lastPressTime (currentChord st)) in
      if Bool.eqb shouldSustain (sustainActive st) then mkRun tt st []
      else mkRun tt (with_sustainActive shouldSustain st)
             [if shouldSustain then sustainOn else sustainOff]
    else if sustainActive st then mkRun tt (with_sustainActive false st) [sustainOff]
    else mkRun tt st [].
Proof.
  unfold checkSustain, bind, get, when. simpl.
  destruct (active (currentChord st)); simpl.
  - destruct (Bool.eqb _ (sustainActive st)); simpl; [reflexivity|].
    destruct (300 <? _); reflexivity.
  - destruct (sustainActive st); reflexivity.
Qed.

Lemma handleChordPlayback_keeps_sustain T : keeps sustainActive (handleChordPlayback T).
Proof. keeps_all. Qed.

Lemma handleChordPlayback_no_sustain T :
  sendsOnly (fun e => site e <> SustainSite) (handleChordPlayback T).
Proof. sends_all. Qed.

(** An accepted notification, cut before the sustain is evaluated. *)
Lemma onNotify_split pData T st :
  rejected pData = false ->
  exists st2 pre,
    sent (onNotify pData T st) = pre ++ sent (checkSustain T st2)
    /\ final (onNotify pData T st) = final (checkSustain T st2)
    /\ sustainActive st2 = sustainActive st
    /\ Forall (fun e => site e <> SustainSite) pre.
Proof.
  intros Hrej.
  set (st1 := with_sensors (float_at pData 6) (pressures_of pData) st).
  set (st1' := final (checkComboKeys T st1)).
  exists (final (handleChordPlayback T st1')),
         (sent (checkComboKeys T st1) ++ sent (handleChordPlayback T st1')).
  unfold onNotify. rewrite Hrej. cbv zeta. unfold handleControls.
  repeat split.
  - rewrite !sent_bind. cbn [updateSensorData modify sent final value app].
    fold st1. fold st1'. rewrite app_assoc. reflexivity.
  - rewrite (handleChordPlayback_keeps_sustain T st1').
    unfold st1'. rewrite (checkComboKeys_keeps_sustain T st1). reflexivity.
  - apply Forall_app. split.
    + apply (checkComboKeys_no_sustain T st1).
    + apply (handleChordPlayback_no_sustain T st1').
Qed.

(** One accepted notification and the sustain: what the flag becomes and
    which sustain message is sent, from the chord as the step leaves it. *)
Lemma onNotify_sustain pData T st :
  rejected pData = false ->
  let r := onNotify pData T st in
  let held := active (currentChord (final r))
              && (300 <? ulong_sub (millis T) (lastPressTime (currentChord (final r)))) in
  sustainActive (final r) = held
  /\ (In sustainOn (sent r) <-> held = true /\ sustainActive st = false)
  /\ (In sustainOff (sent r) <-> held = false /\ sustainActive st = true).
Proof.
  intros Hrej r held.
  destruct (onNotify_split pData T st Hrej) as (st2 & pre & Hsent & Hfinal & Hsus & Hpre).
  assert (Hchord : currentChord (final r) = currentChord st2).
  { unfold r. rewrite Hfinal. apply (checkSustain_keeps_chord T st2). }
  assert (Hno : forall e, site e = SustainSite -> ~ In e pre).
  { intros e He Hin. rewrite Forall_forall in Hpre. exact (Hpre e Hin He). }
  unfold held, r in *. clear held r. rewrite Hchord, Hsent, Hfinal. clear Hchord Hsent Hfinal.
  rewrite !in_app_iff, checkSustain_run, <- Hsus.
  pose proof (Hno sustainOn eq_refl) as Hon.
  pose proof (Hno sustainOff eq_refl) as Hoff.
  destruct (active (currentChord st2)); cbn [andb].
  - cbv zeta.
    destruct (300 <? ulong_sub (millis T) (lastPressTime (currentChord st2)));
      destruct (sustainActive st2) eqn:Es; cbn; rewrite ?Es;
      intuition (discriminate || auto).
  - destruct (sustainActive st2) eqn:Es; cbn; rewrite ?Es;
      intuition (discriminate || auto).
Qed.

Lemma onNotify_pedalOnly pData T : sendsOnly pedalOnly (onNotify pData T).
Proof. unfold onNotify. sends_all. Qed.

Lemma sustain_on_wire pData T st v :
  In (ControlChange 64 v 1) (wire (sent (onNotify pData T st)))
  <-> In (mkSent SustainSite (ControlChange 64 v 1)) (sent (onNotify pData T st)).
Proof.
  split.
  - intros Hin. apply in_map_iff in Hin. destruct Hin as (e & Hmsg & Hin).
    pose proof (onNotify_pedalOnly pData T st) as Hall. cbv beta in Hall.
    rewrite Forall_forall in Hall. specialize (Hall e Hin).
    unfold pedalOnly in Hall. rewrite Hmsg in Hall.
    destruct e as [s m]. simpl in *. subst. exact Hin.
  - intros Hin. apply (in_map msg) in Hin. exact Hin.
Qed.

Lemma sustain_run T0 (evals : list (list byte * Z)) :
  forall st,
    Forall (fun e => rejected (fst e) = false /\ 0 <= snd e - T0 < ULONG_MOD) evals ->
    Forall (heldSince T0) (states (evaluations evals) st) ->
    forall k pData T log,
      nth_error evals k = Some (pData, T) ->
      nth_error (outputs (evaluations evals) st) k = Some log ->
      (In (ControlChange 64 127 1) (wire log) -> 300 < T - T0)
      /\ (300 < T - T0 ->
          sustainActive st = false ->
          (forall j pj Tj, (j < k)%nat -> nth_error evals j = Some (pj, Tj) -> Tj - T0 <= 300) ->
          In (ControlChange 64 127 1) (wire log)).
Proof.
  induction evals as [|[p1 T1] rest IH]; intros st Hacc Hheld k pData T log Hk Hlog.
  - destruct k; discriminate.
  - cbn [evaluations List.map states outputs react fst snd] in Hheld, Hlog.
    fold (evaluations rest) in Hheld, Hlog.
    inversion Hacc as [|? ? [Hrej Hrange] Hacc']; subst.
    inversion Hheld as [|? ? [Hact Hlast] Hheld']; subst.
    cbn [fst snd] in Hrej, Hrange.
    pose proof (onNotify_sustain p1 T1 st Hrej) as Hstep. cbv zeta in Hstep.
    rewrite Hact, Hlast, ulong_sub_millis in Hstep by exact Hrange.
    cbn [andb] in Hstep. destruct Hstep as (Hflag & Hon & _).
    destruct k as [|k].
    + cbn [nth_error] in Hk, Hlog. inversion Hk; subst. inversion Hlog; subst.
      rewrite sustain_on_wire, Hon. split.
      * intros [H _]. apply Z.ltb_lt in H. exact H.
      * intros H Hs _. split; [apply Z.ltb_lt; exact H | exact Hs].
    + cbn [nth_error] in Hk, Hlog.
      destruct (IH _ Hacc' Hheld' k pData T log Hk Hlog) as [Hearly Hlate].
      split; [exact Hearly|].
      intros H _ Hbefore. apply Hlate; [exact H | |].
      * rewrite Hflag. apply Z.ltb_ge.
        apply (Hbefore 0%nat p1 T1); [lia | reflexivity].
      * intros j pj Tj Hj Hnth. apply (Hbefore (S j) pj Tj); [lia | exact Hnth].
Qed.

(** C6. A chord is triggered at the moment [T0] and no other trigger
    follows: through a run of evaluations, each one within 2^32 ms of [T0],
    the chord stays the active one. From a state with the sustain not
    asserted, the sustain-on (controller 64, value 127) goes out at the
    first evaluation that comes more than 300 ms after [T0], and at no
    evaluation that comes 300 ms after [T0] or less. From a state with the
    sustain asserted, an evaluation that ends with the chord inactive, or with
    the last trigger time reset to its own moment, sends the sustain-off
    (value 0) and clears the flag. And the evaluation that triggers a chord
    leaves the sustain not asserted. *)
Theorem sustain_timing :
  (forall (T0 : Z) (evals : list (list byte * Z)) (st : State),
      sustainActive st = false ->
      Forall (fun e => rejected (fst e) = false /\ 0 <= snd e - T0 < ULONG_MOD) evals ->
      Forall (heldSince T0) (states (evaluations evals) st) ->
      forall k pData T log,
        nth_error evals k = Some (pData, T) ->
        nth_error (outputs (evaluations evals) st) k = Some log ->
        (T - T0 <= 300 -> ~ In (ControlChange 64 127 1) (wire log))
        /\ (300 < T - T0 ->
            (forall j pj Tj,
                (j < k)%nat -> nth_error evals j = Some (pj, Tj) -> Tj - T0 <= 300) ->
            In (ControlChange 64 127 1) (wire log)))
  /\ (forall (pData : list byte) (T : Z) (st : State),
         rejected pData = false ->
         sustainActive st = true ->
         active (currentChord (final (onNotify pData T st))) = false
         \/ lastPressTime (currentChord (final (onNotify pData T st))) = millis T ->
         In (ControlChange 64 0 1) (wire (sent (onNotify pData T st)))
         /\ sustainActive (final (onNotify pData T st)) = false)
  /\ (forall (pData : list byte) (T : Z) (st : State),
         rejected pData = false ->
         heldSince T (final (onNotify pData T st)) ->
         sustainActive (final (onNotify pData T st)) = false).
Proof.
  split; [|split].
  - intros T0 evals st Hs Hacc Hheld k pData T log Hk Hlog.
    destruct (sustain_run T0 evals st Hacc Hheld k pData T log Hk Hlog) as [Hearly Hlate].
    split.
    + intros Hle Hin. apply Hearly in Hin. lia.
    + intros Hgt Hbefore. apply Hlate; assumption.
  - intros pData T st Hrej Hs Hend.
    pose proof (onNotify_sustain pData T st Hrej) as Hstep. cbv zeta in Hstep.
    destruct Hstep as (Hflag & _ & Hoff).
    assert (Hheld : active (currentChord (final (onNotify pData T st)))
                    && (300 <? ulong_sub (millis T)
                                 (lastPressTime (currentChord (final (onNotify pData T st)))))
                    = false).
    { destruct Hend as [Hin | Hlast].
      - rewrite Hin. reflexivity.
      - rewrite Hlast. unfold ulong_sub, to_ulong. rewrite Z.sub_diag.
        apply andb_false_r. }
    split.
    + apply sustain_on_wire. apply Hoff. split; assumption.
    + rewrite Hflag. exact Hheld.
  - intros pData T st Hrej [Hact Hlast].
    pose proof (onNotify_sustain pData T st Hrej) as Hstep. cbv zeta in Hstep.
    destruct Hstep as (Hflag & _ & _).
    rewrite Hflag, Hlast. unfold ulong_sub, to_ulong. rewrite Z.sub_diag.
    apply andb_false_r.
Qed.

(** The timing at work. Sensor 0 is pressed at 1000 ms and held; evaluations come
    at 1100, 1250 and 1400 ms. The sustain-on goes out at 1400 ms and not at
    1250 ms; when the sensors then go to rest at 1500 ms the chord stops and
    the sustain-off goes out. *)
Lemma sustain_timing_witness :
  ~ In (ControlChange 64 127 1)
      (wire (sent (onNotify pressC 1250 (final (onNotify pressC 1100 holdingC)))))
  /\ In (ControlChange 64 127 1)
       (wire (sent (onNotify pressC 1400
                      (final (onNotify pressC 1250 (final (onNotify pressC 1100 holdingC)))))))
  /\ In (ControlChange 64 0 1)
       (wire (sent (onNotify (released tilted) 1500
                      (final (runAll (evaluations [(pressC, 1100); (pressC, 1250); (pressC, 1400)])
                                holdingC))))).
Proof.
  destruct sustain_timing as (Hon & Hoff & _).
  assert (Hacc : Forall (fun e => rejected (fst e) = false /\ 0 <= snd e - 1000 < ULONG_MOD)
                   [(pressC, 1100); (pressC, 1250); (pressC, 1400)]).
  { repeat (constructor;
            [split; [reflexivity | vm_compute; split; [discriminate | reflexivity]]|]).
    constructor. }
  assert (Hheld : Forall (heldSince 1000)
                    (states (evaluations [(pressC, 1100); (pressC, 1250); (pressC, 1400)])
                       holdingC)).
  { repeat (constructor; [split; reflexivity|]). constructor. }
  split; [|split].
  - refine (proj1 (Hon 1000 [(pressC, 1100); (pressC, 1250); (pressC, 1400)] holdingC
                     eq_refl Hacc Hheld 1%nat pressC 1250 _ eq_refl eq_refl) _).
    lia.
  - refine (proj2 (Hon 1000 [(pressC, 1100); (pressC, 1250); (pressC, 1400)] holdingC
                     eq_refl Hacc Hheld 2%nat pressC 1400 _ eq_refl eq_refl) _ _).
    + lia.
    + intros j pj Tj Hj Hnth.
      destruct j as [|[|j]]; cbn in Hnth; [| | lia]; inversion Hnth; lia.
  - apply (Hoff (released tilted) 1500
             (final (runAll (evaluations [(pressC, 1100); (pressC, 1250); (pressC, 1400)])
                       holdingC))).
    + reflexivity.
    + reflexivity.
    + left. reflexivity.
Defined.

(** ** The combo-gated slots *)

Lemma playNote_flag j v st i :
  noteActive (final (playNote j v st)) i = if (i =? j)%nat then true else noteActive st i.
Proof.
  unfold playNote, bind, get, when. simpl.
  destruct (noteActive st j) eqn:Hj; simpl.
  - destruct (Nat.eqb_spec i j) as [->|]; [exact Hj | reflexivity].
  - apply noteActive_with_noteActive.
Qed.

Lemma releaseNote_flag j st i :
  noteActive (final (releaseNote j st)) i = if (i =? j)%nat then false else noteActive st i.
Proof. exact (slotOff_flag j st i). Qed.

Lemma releaseNote_keeps_inputs j : keeps inputs (releaseNote j).
Proof. keeps_all. Qed.

Lemma handleComboNotes_keeps_inputs T : keeps inputs (handleComboNotes T).
Proof. keeps_all. Qed.

Lemma handleSingleNotes_keeps_inputs T : keeps inputs (handleSingleNotes T).
Proof. keeps_all. Qed.

Lemma handleChordPlayback_keeps_inputs T : keeps inputs (handleChordPlayback T).
Proof. keeps_all. Qed.

Lemma checkSustain_keeps_inputs T : keeps inputs (checkSustain T).
Proof. keeps_all. Qed.

Lemma checkSustain_keeps_notes T : keeps notesActive (checkSustain T).
Proof. keeps_all. Qed.

(** The single-note mode leaves the combo-gated slots alone. *)
Lemma handleSingleNotes_keeps_combo_slots T :
  keeps (fun st => (noteActive st 5, noteActive st 6)) (handleSingleNotes T).
Proof.
  unfold keeps. unfold_calls. unfold_leaves.
  respects_steps keeps_side
    ltac:(first [ reflexivity
                | cbv beta; rewrite !noteActive_with_noteActive; reflexivity ]).
Qed.

Lemma inputs_eq a b :
  inputs a = inputs b ->
  pressureData a = pressureData b /\ comboKeyActive a = comboKeyActive b.
Proof. unfold inputs. intros H. split; congruence. Qed.

Lemma when_release_flag c j st i :
  noteActive (final (when c (releaseNote j) st)) i
  = if c && (i =? j)%nat then false else noteActive st i.
Proof.
  destruct c; cbn [when andb]; [apply releaseNote_flag | reflexivity].
Qed.

Lemma when_stop_flag c st i :
  noteActive (final (when c stopCurrentChord st)) i = noteActive st i.
Proof.
  destruct c; cbn [when]; [|reflexivity].
  unfold noteActive. rewrite (stopCurrentChord_keeps_notes st). reflexivity.
Qed.

Lemma triggerChord_flag j T st i :
  noteActive (final (triggerChord j T st)) i = noteActive st i.
Proof. unfold noteActive. rewrite (triggerChord_keeps_notes j T st). reflexivity. Qed.

(** The flags of the combo-gated slots after [handleComboNotes]: the first
    sensor above the threshold sets its slot and leaves the other one as it
    was; with neither above, both are cleared. *)
Lemma handleComboNotes_flags T st :
  (noteActive (final (handleComboNotes T st)) 5,
   noteActive (final (handleComboNotes T st)) 6)
  = if above_threshold st A4_KEY then (true, noteActive st 6)
    else if above_threshold st B4_KEY then (noteActive st 5, true)
    else (false, false).
Proof.
  unfold handleComboNotes. rewrite final_bind. cbn [get value final].
  destruct (above_threshold st A4_KEY); [|destruct (above_threshold st B4_KEY)];
    cbv zeta; rewrite !final_bind; cbn [get value final].
  - rewrite !when_release_flag, !playNote_flag, !triggerChord_flag.
    rewrite !andb_false_r. reflexivity.
  - rewrite !when_release_flag, !playNote_flag, !triggerChord_flag.
    rewrite !andb_false_r. reflexivity.
  - rewrite !when_stop_flag, !releaseNote_flag. reflexivity.
Qed.

Lemma checkComboKeys_final T st :
  final (checkComboKeys T st)
  = if comboKeyActive (latched st) then final (handleComboNotes T (latched st))
    else final (handleSingleNotes T (latched st)).
Proof.
  unfold checkComboKeys, latched. rewrite !final_bind. cbn [get value final]. cbv zeta.
  destruct (comboKeyActive _); reflexivity.
Qed.

Lemma latched_facts st :
  comboKeyActive (latched st) = above_threshold st COMBO_KEY
  /\ pressureData (latched st) = pressureData st
  /\ (noteActive (latched st) 5, noteActive (latched st) 6)
     = if comboKeyActive st && negb (above_threshold st COMBO_KEY) then (false, false)
       else (noteActive st 5, noteActive st 6).
Proof.
  unfold latched. cbv zeta.
  destruct (above_threshold st COMBO_KEY) eqn:Hnew, (comboKeyActive st) eqn:Hold;
    cbn [Bool.eqb negb when andb]; rewrite ?final_bind;
    cbn [modify skip ret when negb value final];
    rewrite ?final_bind, ?releaseNote_flag;
    cbn [comboKeyActive pressureData with_comboKeyActive Nat.eqb];
    repeat split; auto.
  - pose proof (releaseNote_keeps_inputs 6
                  (final (releaseNote 5 (with_comboKeyActive false st)))) as H6.
    pose proof (releaseNote_keeps_inputs 5 (with_comboKeyActive false st)) as H5.
    cbv beta in H5, H6. rewrite H5 in H6. exact (proj2 (inputs_eq _ _ H6)).
  - pose proof (releaseNote_keeps_inputs 6
                  (final (releaseNote 5 (with_comboKeyActive false st)))) as H6.
    pose proof (releaseNote_keeps_inputs 5 (with_comboKeyActive false st)) as H5.
    cbv beta in H5, H6. rewrite H5 in H6. exact (proj1 (inputs_eq _ _ H6)).
Qed.

(** [checkComboKeys] and the combo-gated slots. *)
Lemma checkComboKeys_slots T st :
  comboKeyActive (final (checkComboKeys T st)) = above_threshold st COMBO_KEY
  /\ pressureData (final (checkComboKeys T st)) = pressureData st
  /\ (noteActive (final (checkComboKeys T st)) 5, noteActive (final (checkComboKeys T st)) 6)
     = if above_threshold st COMBO_KEY then
         if above_threshold st A4_KEY then (true, noteActive st 6)
         else if above_threshold st B4_KEY then (noteActive st 5, true)
         else (false, false)
       else if comboKeyActive st then (false, false)
       else (noteActive st 5, noteActive st 6).
Proof.
  destruct (latched_facts st) as (Hlatch & Hpress & Hflags).
  assert (Habove : forall k, above_threshold (latched st) k = above_threshold st k).
  { intros k. unfold above_threshold, pressure. rewrite Hpress. reflexivity. }
  rewrite checkComboKeys_final, Hlatch.
  destruct (above_threshold st COMBO_KEY) eqn:Hnew.
  - destruct (inputs_eq _ _ (handleComboNotes_keeps_inputs T (latched st))) as [Hp Hc].
    rewrite Hp, Hc, Hlatch, Hpress, handleComboNotes_flags, !Habove.
    rewrite andb_false_r in Hflags. inversion Hflags as [[H5 H6]].
    repeat split; reflexivity.
  - destruct (inputs_eq _ _ (handleSingleNotes_keeps_inputs T (latched st))) as [Hp Hc].
    rewrite Hp, Hc, Hlatch, Hpress.
    pose proof (handleSingleNotes_keeps_combo_slots T (latched st)) as Hk. cbv beta in Hk.
    rewrite Hk, Hflags, andb_true_r. repeat split; reflexivity.
Qed.

(** An accepted notification and the combo-gated slots: the latch, the
    pressures and the two flags after the step. *)
Lemma onNotify_slots pData T st :
  rejected pData = false ->
  let st1 := with_sensors (float_at pData 6) (pressures_of pData) st in
  comboKeyActive (final (onNotify pData T st)) = above_threshold st1 COMBO_KEY
  /\ (forall k, above_threshold (final (onNotify pData T st)) k = above_threshold st1 k)
  /\ noteActive (final (onNotify pData T st)) 5
     = fst (if above_threshold st1 COMBO_KEY then
              if above_threshold st1 A4_KEY then (true, noteActive st 6)
              else if above_threshold st1 B4_KEY then (noteActive st 5, true)
              else (false, false)
            else if comboKeyActive st then (false, false)
            else (noteActive st 5, noteActive st 6))
  /\ noteActive (final (onNotify pData T st)) 6
     = snd (if above_threshold st1 COMBO_KEY then
              if above_threshold st1 A4_KEY then (true, noteActive st 6)
              else if above_threshold st1 B4_KEY then (noteActive st 5, true)
              else (false, false)
            else if comboKeyActive st then (false, false)
            else (noteActive st 5, noteActive st 6)).
Proof.
  intros Hrej st1.
  set (stc := final (checkComboKeys T st1)).
  assert (Hfinal : final (onNotify pData T st)
                   = final (checkSustain T (final (handleChordPlayback T stc)))).
  { unfold onNotify. rewrite Hrej. reflexivity. }
  assert (Hin : inputs (final (onNotify pData T st)) = inputs stc).
  { rewrite Hfinal.
    rewrite (checkSustain_keeps_inputs T (final (handleChordPlayback T stc))).
    apply (handleChordPlayback_keeps_inputs T stc). }
  assert (Hnotes : forall i, noteActive (final (onNotify pData T st)) i = noteActive stc i).
  { intros i. unfold noteActive. rewrite Hfinal.
    rewrite (checkSustain_keeps_notes T (final (handleChordPlayback T stc))).
    rewrite (handleChordPlayback_keeps_notes T stc). reflexivity. }
  destruct (inputs_eq _ _ Hin) as [Hpress Hcombo].
  destruct (checkComboKeys_slots T st1) as (Hlatch & Hp1 & Hflags).
  fold stc in Hlatch, Hp1, Hflags.
  change (comboKeyActive st1) with (comboKeyActive st) in Hflags.
  change (noteActive st1 5) with (noteActive st 5) in Hflags.
  change (noteActive st1 6) with (noteActive st 6) in Hflags.
  split; [rewrite Hcombo; exact Hlatch|].
  split.
  { intros k. unfold above_threshold, pressure. rewrite Hpress, Hp1. reflexivity. }
  rewrite !Hnotes, <- Hflags. split; reflexivity.
Qed.

Lemma onNotify_comboGated pData T st :
  comboGated st -> comboGated (final (onNotify pData T st)).
Proof.
  intros Hgated. destruct (rejected pData) eqn:Hrej.
  - unfold onNotify. rewrite Hrej. exact Hgated.
  - destruct (onNotify_slots pData T st Hrej) as (Hlatch & _ & H5 & H6).
    unfold comboGated in *. rewrite Hlatch, H5, H6. intros Hnew. rewrite Hnew.
    destruct (comboKeyActive st); [split; reflexivity | exact (Hgated eq_refl)].
Qed.

Lemma allNotesOff_comboGated st : comboGated (final (allNotesOff st)).
Proof.
  intros _. split; apply allNotesOff_flags; reflexivity.
Qed.

Lemma setChordType_keeps_slots t :
  keeps (fun st => (notesActive st, comboKeyActive st)) (setChordType t).
Proof. keeps_all. Qed.

Lemma react_comboGated input st : comboGated st -> comboGated (final (react input st)).
Proof.
  intros Hgated. destruct input as [pData T | | [[| t | ms |]|]]; cbn [react loop].
  - apply onNotify_comboGated. exact Hgated.
  - apply allNotesOff_comboGated.
  - apply allNotesOff_comboGated.
  - pose proof (setChordType_keeps_slots t st) as Hk. cbv beta in Hk.
    unfold comboGated, noteActive in *.
    assert (Hn : notesActive (final (setChordType t st)) = notesActive st) by congruence.
    assert (Hc : comboKeyActive (final (setChordType t st)) = comboKeyActive st) by congruence.
    rewrite Hn, Hc. exact Hgated.
  - exact Hgated.
  - exact Hgated.
  - exact Hgated.
Qed.

(** The combo-gated slots sound only while the latch is active, in every
    state the sketch can reach. *)
Lemma comboGated_reachable (ins : list Input) : comboGated (final (runAll ins initial)).
Proof.
  assert (H : forall st, comboGated st -> comboGated (final (runAll ins st))).
  { induction ins as [|input ins IH]; intros st Hst.
    - exact Hst.
    - unfold runAll. cbn [forEach]. rewrite final_bind.
      apply IH. apply react_comboGated. exact Hst. }
  apply H. intros _. split; reflexivity.
Qed.

(** C2, as the code has it. After the step of an accepted notification the
    combo-gated slots 5 and 6 sound only while the combo latch is active;
    they are both silent when neither combo sensor is above the threshold;
    and the step sets the flag of at most one of them, so that from a state
    where neither sounds at most one sounds afterwards. The slot that is
    triggered does not release the other one: both flags can be set. *)
Theorem combo_slots_after_step (pData : list byte) (T : Z) (st : State) :
  rejected pData = false ->
  comboGated st ->
  comboGated (final (onNotify pData T st))
  /\ (above_threshold (final (onNotify pData T st)) A4_KEY = false ->
      above_threshold (final (onNotify pData T st)) B4_KEY = false ->
      noteActive (final (onNotify pData T st)) 5 = false
      /\ noteActive (final (onNotify pData T st)) 6 = false)
  /\ (noteActive st 5 = false ->
      noteActive st 6 = false ->
      noteActive (final (onNotify pData T st)) 5
      && noteActive (final (onNotify pData T st)) 6 = false).
Proof.
  intros Hrej Hgated.
  split; [apply onNotify_comboGated; exact Hgated|].
  destruct (onNotify_slots pData T st Hrej) as (_ & Habove & H5 & H6).
  rewrite H5, H6, !Habove. clear H5 H6 Habove.
  destruct (above_threshold _ COMBO_KEY), (above_threshold _ A4_KEY),
    (above_threshold _ B4_KEY), (comboKeyActive st) eqn:Hold;
    cbn [fst snd];
    repeat split; intros;
    repeat match goal with
           | H : noteActive st _ = false |- _ => rewrite H; clear H
           end;
    try discriminate; try reflexivity;
    try (destruct (Hgated Hold) as [G5 G6]; rewrite ?G5, ?G6; reflexivity).
Qed.

(** The step at work: B4 sounds from combo slot 6, then every sensor goes to
    rest; both combo-gated slots are silent afterwards. *)
Lemma combo_slots_after_step_witness :
  comboGated (final (onNotify (released flat) 1010 holdingB))
  /\ noteActive (final (onNotify (released flat) 1010 holdingB)) 5 = false
  /\ noteActive (final (onNotify (released flat) 1010 holdingB)) 6 = false.
Proof.
  assert (Hgated : comboGated holdingB).
  { intros H. discriminate H. }
  destruct (combo_slots_after_step (released flat) 1010 holdingB eq_refl Hgated)
    as (H1 & H2 & _).
  split; [exact H1 | exact (H2 eq_refl eq_refl)].
Defined.

(** Both combo-gated slots sounding. B4 sounds from combo slot 6; the next
    notification has the combo key and sensor 1 pressed, sensor 2 at rest:
    slot 5 is triggered, slot 6 is not released, and both flags are set. *)
Lemma combo_slots_both_active :
  noteActive holdingB 5 = false
  /\ noteActive holdingB 6 = true
  /\ rejected (comboA flat) = false
  /\ noteActive (final (onNotify (comboA flat) 1010 holdingB)) 5 = true
  /\ noteActive (final (onNotify (comboA flat) 1010 holdingB)) 6 = true
  /\ wire (sent (onNotify (comboA flat) 1010 holdingB))
     = wire (chordOffs [A3; E4; A4; C5]) ++ [NoteOn A4 73 1].
Proof. repeat split; vm_compute; reflexivity. Qed.

(** * Further properties *)

(** ** The note table *)

(** X1. [getNoteIndex] inverts the note table: the pitch of each of the seven
    slots is found at that slot; a pitch that is found sits in the table at
    the index returned, which is below 7; and -1 is returned exactly for the
    pitches that are not in the table. *)
Theorem getNoteIndex_inverts_mapping :
  (forall i, (i < 7)%nat -> getNoteIndex (NOTE_MAPPING i) = Z.of_nat i)
  /\ (forall note, 0 <= getNoteIndex note ->
        getNoteIndex note < 7 /\ NOTE_MAPPING (Z.to_nat (getNoteIndex note)) = note)
  /\ (forall note, getNoteIndex note = -1 <-> ~ In note NOTE_MAPPING_table).
Proof.
  split; [|split].
  - intros i Hi. do 7 (destruct i as [|i]; [reflexivity|]). lia.
  - intros note. unfold getNoteIndex. cbn [seq scanNoteIndex].
    repeat match goal with
           | |- context [NOTE_MAPPING ?k =? note] =>
               destruct (Z.eqb_spec (NOTE_MAPPING k) note) as [<-|]; [intros _; split; [reflexivity | reflexivity]|]
           end.
    intros H. lia.
  - intros note. unfold getNoteIndex. cbn [seq scanNoteIndex].
    unfold NOTE_MAPPING_table.
    repeat match goal with
           | |- context [NOTE_MAPPING ?k =? note] =>
               destruct (Z.eqb_spec (NOTE_MAPPING k) note) as [<-|];
               [split; [discriminate | intros H; exfalso; apply H; cbn; tauto]|]
           end.
    split; [|reflexivity]. intros _ Hin. cbn in Hin. cbn in *. intuition congruence.
Qed.

Lemma getNoteIndex_inverts_mapping_witness :
  getNoteIndex (NOTE_MAPPING 5) = 5
  /\ NOTE_MAPPING (Z.to_nat (getNoteIndex A4)) = A4
  /\ getNoteIndex 61 = -1.
Proof.
  destruct getNoteIndex_inverts_mapping as (Hfound & Hat & Hnone).
  split; [|split].
  - apply (Hfound 5%nat). lia.
  - apply (Hat A4). vm_compute. discriminate.
  - apply (Hnone 61). cbn. intuition discriminate.
Defined.

(** ** The snapshot of a notification *)

Lemma lor_shiftl_8 (hi lo : N) :
  (lo < 256)%N -> N.lor (N.shiftl hi 8) lo = (hi * 256 + lo)%N.
Proof.
  intros Hlo.
  assert (Hland : N.land (N.shiftl hi 8) lo = 0%N).
  { apply N.bits_inj_0. intros n. rewrite N.land_spec.
    destruct (N.lt_ge_cases n 8) as [Hn | Hn].
    - rewrite N.shiftl_spec_low by exact Hn. reflexivity.
    - destruct (N.eq_dec lo 0) as [-> | Hpos].
      + rewrite N.bits_0. apply andb_false_r.
      + rewrite (N.bits_above_log2 lo n), andb_false_r; [reflexivity|].
        apply N.lt_le_trans with 8%N; [|exact Hn].
        apply N.log2_lt_pow2; [apply N.neq_0_lt_0; exact Hpos | exact Hlo]. }
  rewrite <- N.lxor_lor, <- N.add_nocarry_lxor by exact Hland.
  rewrite N.shiftl_mul_pow2. reflexivity.
Qed.

Lemma byte_at_bound pData k : (byte_at pData k < 256)%N.
Proof.
  unfold byte_at. pose proof (Byte.to_N_bounded (nth k pData x00)). lia.
Qed.

Lemma pressures_of_nth pData i :
  (i < 25)%nat ->
  nth i (pressures_of pData) 0%N
  = (256 * byte_at pData (14 + i * 2) + byte_at pData (15 + i * 2))%N.
Proof.
  intros Hi. unfold pressures_of.
  rewrite (nth_indep _ 0%N
             (to_uint16 (N.lor (N.shiftl (byte_at pData (14 + 0 * 2)) 8)
                           (byte_at pData (15 + 0 * 2)))))
    by (rewrite length_map, length_seq; exact Hi).
  rewrite (map_nth (fun i => to_uint16 (N.lor (N.shiftl (byte_at pData (14 + i * 2)) 8)
                                          (byte_at pData (15 + i * 2))))).
  rewrite seq_nth by exact Hi. change (0 + i)%nat with i.
  pose proof (byte_at_bound pData (14 + i * 2)) as Hhi.
  pose proof (byte_at_bound pData (15 + i * 2)) as Hlo.
  rewrite lor_shiftl_8 by exact Hlo.
  unfold to_uint16. rewrite N.mod_small by lia. lia.
Qed.

Lemma handleControls_keeps_snapshot T :
  keeps (fun st => (pressureData st, currentRoll st)) (handleControls T).
Proof. keeps_all. Qed.

(** X2. A notification that is let through replaces the snapshot: the state
    it leaves holds the roll read at byte 6 and twenty-five pressures, the
    pressure of sensor [i] being the 16-bit big-endian value of bytes
    [14 + 2i] and [15 + 2i]; nothing of the step changes them afterwards. *)
Theorem accepted_payload_stored (pData : list byte) (T : Z) (st : State) :
  rejected pData = false ->
  currentRoll (final (onNotify pData T st)) = float_at pData 6
  /\ pressureData (final (onNotify pData T st)) = pressures_of pData
  /\ length (pressureData (final (onNotify pData T st))) = 25%nat
  /\ forall i, (i < 25)%nat ->
       pressure (final (onNotify pData T st)) i
       = (256 * byte_at pData (14 + i * 2) + byte_at pData (15 + i * 2))%N
       /\ (pressure (final (onNotify pData T st)) i < 65536)%N.
Proof.
  intros Hrej.
  assert (Hsnap : pressureData (final (onNotify pData T st)) = pressures_of pData
                  /\ currentRoll (final (onNotify pData T st)) = float_at pData 6).
  { unfold onNotify. rewrite Hrej. cbv zeta. rewrite final_bind.
    cbn [updateSensorData modify value final].
    pose proof (handleControls_keeps_snapshot T
                  (with_sensors (float_at pData 6) (pressures_of pData) st)) as Hk.
    cbv beta in Hk. cbn [with_sensors pressureData currentRoll] in Hk.
    split; congruence. }
  destruct Hsnap as [Hp Hr].
  split; [exact Hr|]. split; [exact Hp|]. split.
  - rewrite Hp. unfold pressures_of. rewrite length_map, length_seq. reflexivity.
  - intros i Hi. unfold pressure. rewrite Hp, pressures_of_nth by exact Hi.
    pose proof (byte_at_bound pData (14 + i * 2)).
    pose proof (byte_at_bound pData (15 + i * 2)).
    split; [reflexivity | lia].
Qed.

(** The storing at work: the payload of sensor 0 at 200 puts 200 at sensor 0. *)
Lemma accepted_payload_stored_witness :
  pressure (final (onNotify pressC 1000 initial)) 0 = 200%N
  /\ length (pressureData (final (onNotify pressC 1000 initial))) = 25%nat.
Proof.
  destruct (accepted_payload_stored pressC 1000 initial eq_refl) as (_ & _ & Hlen & Hnth).
  split; [|exact Hlen].
  destruct (Hnth 0%nat ltac:(lia)) as [Hval _].
  rewrite Hval. reflexivity.
Defined.

(** ** What goes out on the line *)

Lemma NOTE_MAPPING_range k : 0 <= NOTE_MAPPING k <= 127.
Proof.
  unfold NOTE_MAPPING, NOTE_MAPPING_table.
  do 7 (destruct k as [|k]; [cbv; split; discriminate|]).
  destruct k; cbv; split; discriminate.
Qed.

Lemma chord_pitch_range idx note : In note (CUSTOM_CHORDS idx) -> 0 <= note <= 127.
Proof.
  unfold CUSTOM_CHORDS, CUSTOM_CHORDS_table.
  destruct (Z.to_nat idx) as [|[|[|[|[|[|[|[|n]]]]]]]]; cbn [nth In];
    intuition (subst; cbv; discriminate).
Qed.

Lemma chord_at_range idx k : 0 <= at_ (CUSTOM_CHORDS idx) k <= 127.
Proof.
  unfold at_.
  destruct (nth_in_or_default (Z.to_nat k) (CUSTOM_CHORDS idx) 0) as [Hin | ->].
  - exact (chord_pitch_range idx _ Hin).
  - lia.
Qed.

Lemma calculateVelocity_range j st : 67 <= calculateVelocity j st <= 127.
Proof.
  unfold calculateVelocity, map_long, PRESSURE_THRESHOLD.
  set (x := Z.min (Z.of_N (pressure st j)) 1000).
  assert (Hx : 0 <= x <= 1000) by (unfold x; lia).
  change (127 - 70) with 57. change (1000 - 50) with 950.
  pose proof (Z.quot_rem' ((x - 50) * 57) 950) as Hq.
  destruct (Z_le_gt_dec 0 ((x - 50) * 57)) as [Hpos | Hneg].
  - pose proof (Z.rem_bound_pos ((x - 50) * 57) 950 Hpos ltac:(lia)). nia.
  - pose proof (Z.rem_bound_pos_neg ((x - 50) * 57) 950 ltac:(lia) ltac:(lia)). nia.
Qed.

Ltac valid_leaf :=
  solve [ constructor;
          [ hnf; cbn [msg];
            split; [| split];
            first [ reflexivity
                  | match goal with
                    | |- context [if ?b then _ else _] =>
                        destruct b; [right | left]; reflexivity
                    end
                  | apply NOTE_MAPPING_range
                  | apply chord_at_range
                  | eapply chord_pitch_range; eassumption
                  | match goal with
                    | |- _ <= calculateVelocity ?j ?a <= _ =>
                        pose proof (calculateVelocity_range j a); lia
                    end
                  | left; reflexivity
                  | right; reflexivity
                  | lia ]
          | constructor ]
        | constructor ].

Lemma react_valid (input : Input) : sendsOnly (fun e => validMsg (msg e)) (react input).
Proof.
  destruct input as [pData T | | [[| t | ms |]|]]; cbn [react loop onDisconnect];
    unfold onNotify, sendsOnly; unfold_calls; unfold_leaves;
    respects_steps sends_side valid_leaf.
Qed.

(** X3. Whatever the inputs and the state they start from, every message
    sent is one the MIDI line can carry: it is on channel 1, its pitch lies
    within 0..127, a note-on has a velocity within 1..127, a note-off has
    velocity 0, and a control-change is the sustain controller 64 with value
    0 or 127. *)
Theorem every_message_valid (ins : list Input) (st : State) :
  Forall validMsg (wire (sent (runAll ins st))).
Proof.
  unfold wire. apply Forall_map. unfold runAll.
  apply (respects_forEach (fun _ _ log => Forall (fun e => validMsg (msg e)) log));
    [sends_side | sends_side |].
  intros input _. apply react_valid.
Qed.

(** ** The order of a step *)

Lemma checkComboKeys_fromNotes T : sendsOnly fromNotes (checkComboKeys T).
Proof. sends_all. Qed.

Lemma handleChordPlayback_fromPlayback T : sendsOnly fromPlayback (handleChordPlayback T).
Proof. sends_all. Qed.

Lemma checkSustain_fromPedal T : sendsOnly fromPedal (checkSustain T).
Proof. sends_all. Qed.

(** X4. The log of an accepted notification comes in three stretches, in
    this order: the messages of the note slots and of the chord stops they
    cause; then the messages of the arpeggio, or of the chord stop it falls
    back on; then at most one sustain message. *)
Theorem step_in_three_stages (pData : list byte) (T : Z) (st : State) :
  rejected pData = false ->
  exists notes playback pedal,
    sent (onNotify pData T st) = notes ++ playback ++ pedal
    /\ Forall fromNotes notes
    /\ Forall fromPlayback playback
    /\ Forall fromPedal pedal
    /\ (length pedal <= 1)%nat.
Proof.
  intros Hrej.
  set (st1 := with_sensors (float_at pData 6) (pressures_of pData) st).
  set (st2 := final (checkComboKeys T st1)).
  set (st3 := final (handleChordPlayback T st2)).
  exists (sent (checkComboKeys T st1)), (sent (handleChordPlayback T st2)),
         (sent (checkSustain T st3)).
  split.
  { unfold onNotify. rewrite Hrej. reflexivity. }
  split; [apply (checkComboKeys_fromNotes T st1)|].
  split; [apply (handleChordPlayback_fromPlayback T st2)|].
  split; [apply (checkSustain_fromPedal T st3)|].
  rewrite checkSustain_run.
  destruct (active (currentChord st3)); cbv zeta;
    repeat match goal with
           | |- context [if ?b then _ else _] => destruct b
           end; cbn; lia.
Qed.

(** The stages at work: the third notification of a held press sends its
    arpeggio messages, then the sustain-on. *)
Lemma step_in_three_stages_witness :
  exists notes playback pedal,
    sent (onNotify pressC 1600 (final (runAll [Notify pressC 1000; Notify pressC 1300] initial)))
    = notes ++ playback ++ pedal
    /\ Forall fromNotes notes
    /\ Forall fromPlayback playback
    /\ Forall fromPedal pedal
    /\ (length pedal <= 1)%nat.
Proof.
  apply (step_in_three_stages pressC 1600
           (final (runAll [Notify pressC 1000; Notify pressC 1300] initial))).
  reflexivity.
Defined.

(** ** Invariants of the controller *)

Ltac preserves_side := solve [ intros; cbv beta; auto ].

(** An invariant kept by every input holds all along a run. *)
Lemma invariant_along_run (Inv : State -> Prop) :
  (forall input, preserves Inv (react input)) ->
  forall ins st, Inv st -> Forall Inv (states ins st) /\ Inv (final (runAll ins st)).
Proof.
  intros Hreact. induction ins as [|input ins IH]; intros st Hst.
  - split; [constructor | exact Hst].
  - cbn [states]. unfold runAll. cbn [forEach]. rewrite final_bind.
    pose proof (Hreact input st Hst) as Hnext.
    destruct (IH _ Hnext) as [Hall Hlast].
    split; [constructor; assumption | exact Hlast].
Qed.

(** *** The cursor of the arpeggio *)

Lemma firstAbove_range st l :
  Forall (fun i => (i < 5)%nat) l -> -1 <= firstAbove st l < 5.
Proof.
  induction 1 as [|i l Hi _ IH]; cbn [firstAbove]; [lia|].
  destruct (above_threshold st i); lia.
Qed.

Lemma playbackIndex_range st : -1 <= playbackIndex st < 7.
Proof.
  unfold playbackIndex.
  destruct (comboKeyActive st).
  - destruct (above_threshold st A4_KEY); [lia|].
    destruct (above_threshold st B4_KEY); lia.
  - assert (-1 <= firstAbove st (seq 0 5) < 5); [|lia].
    apply firstAbove_range. repeat constructor.
Qed.

Lemma playback_chord_length st : length (CUSTOM_CHORDS (playbackIndex st)) = 4%nat.
Proof.
  pose proof (playbackIndex_range st) as H. unfold CUSTOM_CHORDS.
  assert (Hn : (Z.to_nat (playbackIndex st) < 7)%nat) by lia.
  revert Hn. generalize (Z.to_nat (playbackIndex st)) as n. intros n Hn.
  do 7 (destruct n as [|n]; [reflexivity|]). lia.
Qed.

Lemma react_cursorInv input : preserves cursorInv (react input).
Proof.
  destruct input as [pData T | | [[| t | ms |]|]]; cbn [react loop onDisconnect];
    unfold onNotify, preserves; unfold_calls; unfold_leaves;
    respects_steps preserves_side
      ltac:(first [ solve [ unfold cursorInv; cbn; intros; lia ]
                  | solve [ unfold cursorInv; cbn [currentArpeggioStep with_currentArpeggioStep];
                            intros _; rewrite playback_chord_length;
                            apply Z.mod_pos_bound; reflexivity ]
                  | solve [ unfold cursorInv; intros Hinv; exact Hinv ] ]).
Qed.

(** X5. The arpeggio cursor stays within the chord it indexes: from a state
    where it lies within 0..3, as at start, it lies within 0..3 after every
    input of every run, below the length of the chord set that the playback
    selects. *)
Theorem arpeggio_cursor_in_range (ins : list Input) (st : State) :
  cursorInv st ->
  Forall (fun s => 0 <= currentArpeggioStep s
                   < Z.of_nat (length (CUSTOM_CHORDS (playbackIndex s))))
    (states ins st)
  /\ cursorInv (final (runAll ins st)).
Proof.
  intros Hst.
  destruct (invariant_along_run cursorInv react_cursorInv ins st Hst) as [Hall Hlast].
  split; [|exact Hlast].
  eapply Forall_impl; [|exact Hall].
  intros s Hs. rewrite playback_chord_length. exact Hs.
Qed.

Lemma arpeggio_cursor_in_range_witness :
  cursorInv (final (runAll (List.map (Notify pressC) [1000; 1300; 1600; 1900; 2200]) initial)).
Proof.
  apply (arpeggio_cursor_in_range
           (List.map (Notify pressC) [1000; 1300; 1600; 1900; 2200]) initial).
  unfold cursorInv. cbn. lia.
Defined.

(** *** The active chord *)

Lemma stopCurrentChord_chord st :
  currentChord (final (stopCurrentChord st))
  = if active (currentChord st) then chord_active false (currentChord st)
    else currentChord st.
Proof.
  destruct (active (currentChord st)) eqn:Hact.
  - rewrite stopCurrentChord_active by exact Hact. reflexivity.
  - rewrite stopCurrentChord_inactive by exact Hact. reflexivity.
Qed.

(** The chord that a trigger on slot [j] starts from the chord [c]. *)
Lemma triggerChord_chord j T st :
  currentChord (final (triggerChord j T st))
  = if negb (active (currentChord st))
       || negb (rootNote (currentChord st) =? NOTE_MAPPING j)
    then
      let c := currentChord st in
      let root := NOTE_MAPPING j in
      mkChord root (to_byte (root + thirdOffset (type c)))
        (to_byte (root + fifthOffset (type c)))
        (match seventhOffset (type c) with
         | Some o => to_byte (root + o)
         | None => 0
         end)
        (type c) true (millis T) (repeat false 4)
    else currentChord st.
Proof.
  unfold triggerChord. rewrite final_bind. cbn [get value final].
  destruct (negb (active (currentChord st))
            || negb (rootNote (currentChord st) =? NOTE_MAPPING j)); [|reflexivity].
  cbn [when]. rewrite !final_bind.
  cbn [modify updateChordNotes value final currentChord with_currentChord].
  rewrite stopCurrentChord_chord. cbv zeta.
  unfold chord_notesPlayed, chord_active, chord_lastPressTime, chord_notes,
    chord_rootNote.
  destruct (active (currentChord st));
    cbn [type rootNote thirdNote fifthNote seventhNote active lastPressTime
           notesPlayed];
    destruct (type (currentChord st)); reflexivity.
Qed.

Lemma formed_on_mapped_root j t (l : Z) (played : list bool) :
  (j < 7)%nat ->
  chordFormed
    (mkChord (NOTE_MAPPING j) (to_byte (NOTE_MAPPING j + thirdOffset t))
       (to_byte (NOTE_MAPPING j + fifthOffset t))
       (match seventhOffset t with
        | Some o => to_byte (NOTE_MAPPING j + o)
        | None => 0
        end) t true l played).
Proof.
  intros Hj. do 7 (destruct j as [|j]; [destruct t; cbv; intuition discriminate|]). lia.
Qed.

Lemma triggerChord_chordInv j T : (j < 7)%nat -> preserves chordInv (triggerChord j T).
Proof.
  intros Hj st Hinv. unfold chordInv in *. rewrite triggerChord_chord.
  destruct (negb (active (currentChord st))
            || negb (rootNote (currentChord st) =? NOTE_MAPPING j)); [|exact Hinv].
  intros _. cbv zeta. apply formed_on_mapped_root. exact Hj.
Qed.

Lemma setChordType_chord t st :
  currentChord (final (setChordType t st))
  = let c := currentChord st in
    mkChord (rootNote c) (to_byte (rootNote c + thirdOffset t))
      (to_byte (rootNote c + fifthOffset t))
      (match seventhOffset t with
       | Some o => to_byte (rootNote c + o)
       | None => 0
       end)
      t (active c) (lastPressTime c) (notesPlayed c).
Proof.
  unfold setChordType. rewrite final_bind.
  cbn [modify updateChordNotes value final currentChord with_currentChord].
  unfold chord_notes, chord_type.
  cbn [type rootNote thirdNote fifthNote seventhNote active lastPressTime notesPlayed].
  destruct t; reflexivity.
Qed.

Lemma mapped_root root :
  In root NOTE_MAPPING_table -> exists j, (j < 7)%nat /\ root = NOTE_MAPPING j.
Proof.
  unfold NOTE_MAPPING_table. cbn [In].
  intros [H | [H | [H | [H | [H | [H | [H | []]]]]]]]; subst;
    [exists 0%nat | exists 1%nat | exists 2%nat | exists 3%nat | exists 4%nat
     | exists 5%nat | exists 6%nat]; split; (lia || reflexivity).
Qed.

Lemma setChordType_chordInv t : preserves chordInv (setChordType t).
Proof.
  intros st Hinv. unfold chordInv in *. rewrite setChordType_chord. cbv zeta.
  cbn [active]. intros Hact.
  destruct (Hinv Hact) as (Hroot & _).
  destruct (mapped_root _ Hroot) as (j & Hj & ->).
  rewrite Hact. apply formed_on_mapped_root. exact Hj.
Qed.

Lemma react_chordInv input : preserves chordInv (react input).
Proof.
  destruct input as [pData T | | [[| t | ms |]|]]; cbn [react loop onDisconnect];
    unfold onNotify, preserves;
    unfold handleControls, checkComboKeys, handleComboNotes, handleSingleNotes,
      singleNote, handleChordPlayback, checkSustain, allNotesOff, stopCurrentChord,
      updateSensorData;
    cbv zeta; unfold_leaves;
    respects_steps_from
      ltac:(first [ apply triggerChord_chordInv; lia | apply setChordType_chordInv ])
      preserves_side
      ltac:(first [ solve [ unfold chordInv; cbn; intros Hinv; exact Hinv ]
                  | solve [ unfold chordInv; cbn; intros _ Hact; discriminate Hact ] ]).
Qed.

(** X6. An active chord is always well formed: from a state where this
    holds, as at start, after every input of every run the active chord, if
    there is one, sits on the pitch of one of the seven slots, and its third,
    fifth and seventh are the intervals of the chord type in force above the
    root (major 4 and 7, minor 3 and 7, augmented 4 and 8, diminished 3 and
    6, sus4 5 and 7, seventh 4, 7 and 10; a seventh of 0 where the type has
    none), with no byte wrap and nothing above 127. *)
Theorem active_chord_well_formed (ins : list Input) (st : State) :
  chordInv st ->
  Forall chordInv (states ins st) /\ chordInv (final (runAll ins st)).
Proof.
  apply (invariant_along_run chordInv react_chordInv).
Qed.

(** The chord at work: a seventh chord is asked for on the console, then
    sensor 0 is pressed; the chord is 60, 64, 67, 70. *)
Lemma active_chord_well_formed_witness :
  chordFormed
    (currentChord (final (runAll [Loop (Some (CmdChord SEVENTH)); Notify pressC 1000] initial)))
  /\ seventhNote
       (currentChord (final (runAll [Loop (Some (CmdChord SEVENTH)); Notify pressC 1000] initial)))
     = 70.
Proof.
  split; [|reflexivity].
  refine (proj2 (active_chord_well_formed
                   [Loop (Some (CmdChord SEVENTH)); Notify pressC 1000] initial _) eq_refl).
  intros H. discriminate H.
Defined.

(** *** The sustain *)

Lemma allNotesOff_sustain st : sustainActive (final (allNotesOff st)) = false.
Proof.
  rewrite allNotesOff_final, (stopCurrentChord_keeps_sustain (beforeStop st)).
  apply beforeStop_facts.
Qed.

Lemma setChordType_keeps_sustain t : keeps sustainActive (setChordType t).
Proof. keeps_all. Qed.

Lemma react_sustainInv input : preserves sustainInv (react input).
Proof.
  intros st Hinv. unfold sustainInv in *.
  destruct input as [pData T | | [[| t | ms |]|]]; cbn [react loop onDisconnect].
  - destruct (rejected pData) eqn:Hrej.
    + unfold onNotify. rewrite Hrej. exact Hinv.
    + pose proof (onNotify_sustain pData T st Hrej) as Hstep. cbv zeta in Hstep.
      destruct Hstep as (Hflag & _). rewrite Hflag. intros H.
      apply andb_true_iff in H. apply H.
  - rewrite allNotesOff_sustain. discriminate.
  - rewrite allNotesOff_sustain. discriminate.
  - rewrite (setChordType_keeps_sustain t st), setChordType_chord. exact Hinv.
  - exact Hinv.
  - exact Hinv.
  - exact Hinv.
Qed.

(** X7. The sustain is asserted only over an active chord: from a state
    where this holds, as at start, it holds after every input of every run.
    After an accepted notification the flag is exactly this: a chord is
    active and its last trigger lies more than 300 ms back on the 32-bit
    clock. *)
Theorem sustain_only_over_active_chord :
  (forall (ins : list Input) (st : State),
      sustainInv st ->
      Forall sustainInv (states ins st) /\ sustainInv (final (runAll ins st)))
  /\ (forall (pData : list byte) (T : Z) (st : State),
         rejected pData = false ->
         sustainActive (final (onNotify pData T st))
         = active (currentChord (final (onNotify pData T st)))
           && (300 <? ulong_sub (millis T)
                        (lastPressTime (currentChord (final (onNotify pData T st)))))).
Proof.
  split.
  - apply (invariant_along_run sustainInv react_sustainInv).
  - intros pData T st Hrej.
    pose proof (onNotify_sustain pData T st Hrej) as Hstep. cbv zeta in Hstep.
    apply Hstep.
Qed.

Lemma sustain_only_over_active_chord_witness :
  sustainInv (final (runAll [Notify pressC 1000; Notify pressC 1400; Disconnect] initial))
  /\ sustainActive (final (onNotify pressC 1400 holdingC)) = true.
Proof.
  destruct sustain_only_over_active_chord as [Hinv Hflag].
  split.
  - apply (Hinv [Notify pressC 1000; Notify pressC 1400; Disconnect] initial).
    intros H. discriminate H.
  - rewrite (Hflag pressC 1400 holdingC eq_refl). reflexivity.
Defined.

(** ** The arpeggio, step by step *)

(** [handleChordPlayback] by cases: the gate closed, no sensor to play from,
    a step due, nothing due. *)
Lemma handleChordPlayback_run T st :
  handleChordPlayback T st
  = if negb (gateOpen st) then mkRun tt (with_currentArpeggioStep 0 st) []
    else if playbackIndex st <? 0 then stopCurrentChord st
    else if stepDue T st then
      let chord := CUSTOM_CHORDS (playbackIndex st) in
      let step := currentArpeggioStep st in
      mkRun tt
        (with_lastArpeggioTime (millis T)
           (with_currentArpeggioStep
              (to_ulong (step + 1) mod Z.of_nat (length chord)) st))
        ((if 0 <? step then [mkSent ArpeggioSite (NoteOff (at_ chord (step - 1)) 0 1)]
          else [])
         ++ [mkSent ArpeggioSite (NoteOn (at_ chord step) 100 1)])
    else mkRun tt st [].
Proof.
  unfold handleChordPlayback, gateOpen, stepDue. unfold bind at 1. cbn [get value final sent].
  rewrite negb_andb, negb_involutive.
  destruct (negb (active (currentChord st))
            || fle (fabs (currentRoll st)) (float_of_int CHORD_ANGLE_THRESHOLD));
    [reflexivity|].
  cbv zeta. destruct (playbackIndex st <? 0).
  { cbn [app]. destruct (stopCurrentChord st); reflexivity. }
  destruct (ARPEGGIO_DELAY st <? ulong_sub (millis T) (lastArpeggioTime st));
    [|reflexivity].
  destruct (0 <? currentArpeggioStep st); reflexivity.
Qed.

(** X8. The arpeggio restarts from the first note. While no chord is active
    or the roll is within the angle threshold, [handleChordPlayback] sends
    nothing and only puts the cursor back to 0. The step taken from cursor 0,
    once the gate is open, a sensor selects a chord and the delay has run
    out, is one note-on, velocity 100, for the first note of that chord, with
    no note-off before it; it moves the cursor to 1 and records its moment. *)
Theorem arpeggio_restarts_at_first_note (T : Z) (st : State) :
  (gateOpen st = false ->
   handleChordPlayback T st = mkRun tt (with_currentArpeggioStep 0 st) [])
  /\ (gateOpen st = true ->
      0 <= playbackIndex st ->
      stepDue T st = true ->
      currentArpeggioStep st = 0 ->
      wire (sent (handleChordPlayback T st))
      = [NoteOn (at_ (CUSTOM_CHORDS (playbackIndex st)) 0) 100 1]
      /\ currentArpeggioStep (final (handleChordPlayback T st)) = 1
      /\ lastArpeggioTime (final (handleChordPlayback T st)) = millis T).
Proof.
  split.
  - intros Hgate. rewrite handleChordPlayback_run, Hgate. reflexivity.
  - intros Hgate Hidx Hdue Hstep.
    rewrite handleChordPlayback_run, Hgate, Hdue. cbn [negb].
    destruct (Z.ltb_spec (playbackIndex st) 0) as [Hneg|_]; [lia|].
    cbv zeta. rewrite Hstep, playback_chord_length. repeat split; reflexivity.
Qed.

(** The restart at work: the arpeggio of a held press has advanced to its
    third note; the hand goes flat, then tilts again: the next step plays
    the first note of the chord, pitch 60. *)
Lemma arpeggio_restarts_at_first_note_witness :
  currentArpeggioStep arpeggiating = 3
  /\ sent (handleChordPlayback 1900 handFlat) = []
  /\ wire (sent (handleChordPlayback 2200 handTilted)) = [NoteOn 60 100 1].
Proof.
  split; [reflexivity|]. split.
  - rewrite (proj1 (arpeggio_restarts_at_first_note 1900 handFlat) eq_refl). reflexivity.
  - refine (proj1 (proj2 (arpeggio_restarts_at_first_note 2200 handTilted)
                     eq_refl _ eq_refl eq_refl)).
    vm_compute. discriminate.
Defined.

Lemma checkComboKeys_keeps_pace T : keeps pace (checkComboKeys T).
Proof. keeps_all. Qed.

Lemma checkSustain_keeps_pace T : keeps pace (checkSustain T).
Proof. keeps_all. Qed.

Lemma stopCurrentChord_keeps_pace : keeps pace stopCurrentChord.
Proof. keeps_all. Qed.

Lemma checkComboKeys_no_arpeggio T :
  sendsOnly (fun e => fromArpeggio e = false) (checkComboKeys T).
Proof. sends_all. Qed.

Lemma checkSustain_no_arpeggio T :
  sendsOnly (fun e => fromArpeggio e = false) (checkSustain T).
Proof. sends_all. Qed.

Lemma stopCurrentChord_no_arpeggio :
  sendsOnly (fun e => fromArpeggio e = false) stopCurrentChord.
Proof. sends_all. Qed.

(** The playback and the pace: a step is taken only when due and then
    records its moment; otherwise the pace is as it was. *)
Lemma handleChordPlayback_pace T st :
  let r := handleChordPlayback T st in
  ARPEGGIO_DELAY (final r) = ARPEGGIO_DELAY st
  /\ (existsb fromArpeggio (sent r) = true ->
      stepDue T st = true /\ lastArpeggioTime (final r) = millis T)
  /\ (existsb fromArpeggio (sent r) = false ->
      lastArpeggioTime (final r) = lastArpeggioTime st).
Proof.
  cbv zeta. rewrite handleChordPlayback_run.
  destruct (negb (gateOpen st)); [cbn; intuition discriminate|].
  destruct (playbackIndex st <? 0).
  { pose proof (stopCurrentChord_keeps_pace st) as Hk. cbv beta in Hk.
    pose proof (stopCurrentChord_no_arpeggio st) as Hs. cbv beta in Hs.
    assert (Hnone : existsb fromArpeggio (sent (stopCurrentChord st)) = false).
    { destruct (existsb fromArpeggio (sent (stopCurrentChord st))) eqn:E; [|reflexivity].
      apply existsb_exists in E. destruct E as (e & Hin & He).
      rewrite Forall_forall in Hs. rewrite (Hs e Hin) in He. discriminate. }
    unfold pace in Hk. rewrite Hnone.
    split; [congruence|]. split; [discriminate | intros _; congruence]. }
  destruct (stepDue T st); [|cbn; intuition discriminate].
  cbv zeta. cbn [final sent]. split; [reflexivity|]. split; [intros _; split; reflexivity|].
  rewrite existsb_app. cbn. rewrite orb_true_r. discriminate.
Qed.

(** One accepted notification and the pace. *)
Lemma onNotify_pace pData T st :
  rejected pData = false ->
  let r := onNotify pData T st in
  ARPEGGIO_DELAY (final r) = ARPEGGIO_DELAY st
  /\ (existsb fromArpeggio (sent r) = true ->
      (ARPEGGIO_DELAY st <? ulong_sub (millis T) (lastArpeggioTime st)) = true
      /\ lastArpeggioTime (final r) = millis T)
  /\ (existsb fromArpeggio (sent r) = false ->
      lastArpeggioTime (final r) = lastArpeggioTime st).
Proof.
  intros Hrej. cbv zeta.
  set (st1 := with_sensors (float_at pData 6) (pressures_of pData) st).
  set (st2 := final (checkComboKeys T st1)).
  set (st3 := final (handleChordPlayback T st2)).
  assert (Hsent : sent (onNotify pData T st)
                  = sent (checkComboKeys T st1) ++ sent (handleChordPlayback T st2)
                    ++ sent (checkSustain T st3)).
  { unfold onNotify. rewrite Hrej. reflexivity. }
  assert (Hfinal : final (onNotify pData T st) = final (checkSustain T st3)).
  { unfold onNotify. rewrite Hrej. reflexivity. }
  assert (Hquiet : forall (m : M unit) s,
             sendsOnly (fun e => fromArpeggio e = false) m ->
             existsb fromArpeggio (sent (m s)) = false).
  { intros m s Hm. destruct (existsb fromArpeggio (sent (m s))) eqn:E; [|reflexivity].
    apply existsb_exists in E. destruct E as (e & Hin & He).
    pose proof (Hm s) as Hall. cbv beta in Hall. rewrite Forall_forall in Hall.
    rewrite (Hall e Hin) in He. discriminate. }
  rewrite Hsent, Hfinal, !existsb_app.
  rewrite (Hquiet _ st1 (checkComboKeys_no_arpeggio T)).
  rewrite (Hquiet _ st3 (checkSustain_no_arpeggio T)).
  rewrite orb_false_r. cbn [orb].
  pose proof (checkComboKeys_keeps_pace T st1) as H1. cbv beta in H1.
  pose proof (checkSustain_keeps_pace T st3) as H3. cbv beta in H3.
  fold st2 in H1. unfold pace in H1, H3.
  change (lastArpeggioTime st1) with (lastArpeggioTime st) in H1.
  change (ARPEGGIO_DELAY st1) with (ARPEGGIO_DELAY st) in H1.
  assert (Hl3 : lastArpeggioTime (final (checkSustain T st3)) = lastArpeggioTime st3)
    by congruence.
  assert (Hd3 : ARPEGGIO_DELAY (final (checkSustain T st3)) = ARPEGGIO_DELAY st3)
    by congruence.
  assert (Hl2 : lastArpeggioTime st2 = lastArpeggioTime st) by congruence.
  assert (Hd2 : ARPEGGIO_DELAY st2 = ARPEGGIO_DELAY st) by congruence.
  destruct (handleChordPlayback_pace T st2) as (Hd & Hstep & Hnone).
  fold st3 in Hd, Hstep, Hnone. unfold stepDue in Hstep.
  rewrite Hl3, Hd3, Hd, Hd2. rewrite Hl2, Hd2 in Hstep. rewrite Hl2 in Hnone.
  repeat split; tauto.
Qed.

(** X9. The arpeggio keeps its delay. A notification that takes an arpeggio
    step records the moment of the step; and after a step at the moment
    [T0], no notification that comes within [ARPEGGIO_DELAY] ms of [T0]
    sends an arpeggio message, however many of them come and whatever they
    carry. *)
Theorem arpeggio_keeps_its_delay :
  (forall (pData : list byte) (T : Z) (st : State),
      rejected pData = false ->
      existsb fromArpeggio (sent (onNotify pData T st)) = true ->
      lastArpeggioTime (final (onNotify pData T st)) = millis T)
  /\ (forall (T0 : Z) (evals : list (list byte * Z)) (st : State),
         lastArpeggioTime st = millis T0 ->
         Forall (fun e => rejected (fst e) = false
                          /\ 0 <= snd e - T0 <= ARPEGGIO_DELAY st
                          /\ snd e - T0 < ULONG_MOD) evals ->
         existsb fromArpeggio (sent (runAll (evaluations evals) st)) = false).
Proof.
  split.
  - intros pData T st Hrej Hsent.
    pose proof (onNotify_pace pData T st Hrej) as Hp. cbv zeta in Hp.
    apply Hp. exact Hsent.
  - intros T0 evals. induction evals as [|[p1 T1] rest IH]; intros st Hlast Hall.
    + reflexivity.
    + inversion Hall as [|? ? (Hrej & Hrange & Hwrap) Hall']; subst.
      cbn [fst snd] in Hrej, Hrange, Hwrap.
      pose proof (onNotify_pace p1 T1 st Hrej) as Hp. cbv zeta in Hp.
      destruct Hp as (Hdelay & Hstep & Hnone).
      assert (Hquiet : existsb fromArpeggio (sent (onNotify p1 T1 st)) = false).
      { destruct (existsb fromArpeggio (sent (onNotify p1 T1 st))); [|reflexivity].
        destruct (Hstep eq_refl) as [Hdue _].
        rewrite Hlast, ulong_sub_millis in Hdue by lia.
        apply Z.ltb_lt in Hdue. lia. }
      unfold evaluations, runAll. cbn [List.map forEach fst snd].
      rewrite sent_bind, existsb_app. cbn [react]. rewrite Hquiet. cbn [orb].
      apply IH.
      * rewrite (Hnone Hquiet). exact Hlast.
      * rewrite Hdelay. exact Hall'.
Qed.

(** The delay at work: a step was taken at 1000 ms with a delay of 200 ms;
    the notifications at 1050, 1100 and 1200 ms take none. *)
Lemma arpeggio_keeps_its_delay_witness :
  existsb fromArpeggio (sent (onNotify pressC 1000 initial)) = true
  /\ existsb fromArpeggio
       (sent (runAll (evaluations [(pressC, 1050); (pressC, 1100); (pressC, 1200)]) holdingC))
     = false.
Proof.
  split; [reflexivity|].
  apply (proj2 arpeggio_keeps_its_delay 1000
           [(pressC, 1050); (pressC, 1100); (pressC, 1200)] holdingC).
  - exact (proj1 arpeggio_keeps_its_delay pressC 1000 initial eq_refl eq_refl).
  - repeat (constructor;
            [split; [reflexivity | vm_compute; intuition discriminate]|]).
    constructor.
Defined.

(** ** The console *)





(** ** The triggers, by cases *)

Lemma chordRelease_ext a b :
  currentChord a = currentChord b -> inputs a = inputs b ->
  chordRelease a = chordRelease b.
Proof.
  intros Hc Hi. destruct (inputs_eq a b Hi) as [Hp Hk].
  unfold chordRelease. rewrite Hc, (stopSelection_ext a b Hk Hp). reflexivity.
Qed.

(** What a trigger on slot [j] sends: the release of the chord it replaces. *)
Lemma triggerChord_sent j T st :
  sent (triggerChord j T st)
  = if negb (active (currentChord st))
       || negb (rootNote (currentChord st) =? NOTE_MAPPING j)
    then chordRelease st
    else [].
Proof.
  unfold triggerChord. rewrite sent_bind. cbn [get value final sent app].
  destruct (negb (active (currentChord st))
            || negb (rootNote (currentChord st) =? NOTE_MAPPING j)); [|reflexivity].
  cbn [when]. rewrite !sent_bind.
  cbn [modify updateChordNotes sent]. rewrite !app_nil_r.
  apply stopCurrentChord_sent.
Qed.

Lemma triggerChord_keeps_the_inputs j T : keeps inputs (triggerChord j T).
Proof. keeps_all. Qed.

Lemma playNote_run i v st :
  playNote i v st
  = if noteActive st i then mkRun tt st []
    else mkRun tt (with_noteActive i true st)
           [mkSent (SlotSite i) (NoteOn (NOTE_MAPPING i) v 1)].
Proof.
  unfold playNote, bind, get, when. simpl. destruct (noteActive st i); reflexivity.
Qed.

Lemma releaseNote_run i st :
  releaseNote i st
  = if noteActive st i then mkRun tt (with_noteActive i false st) [slotNoteOff i]
    else mkRun tt st [].
Proof. exact (slotOff_run i st). Qed.

Lemma playNote_keeps_chord i v : keeps currentChord (playNote i v).
Proof. keeps_all. Qed.

Lemma releaseNote_keeps_chord i : keeps currentChord (releaseNote i).
Proof. keeps_all. Qed.

(** The chord that a trigger on slot [j] leaves is active on the pitch of
    the slot; its trigger time is the moment of the call when the chord was
    replaced, the one it had otherwise. *)
Lemma triggerChord_result j T st :
  active (currentChord (final (triggerChord j T st))) = true
  /\ rootNote (currentChord (final (triggerChord j T st))) = NOTE_MAPPING j
  /\ lastPressTime (currentChord (final (triggerChord j T st)))
     = if negb (active (currentChord st))
          || negb (rootNote (currentChord st) =? NOTE_MAPPING j)
       then millis T
       else lastPressTime (currentChord st).
Proof.
  rewrite triggerChord_chord.
  destruct (active (currentChord st)) eqn:Hact; cbn [negb orb]; cbv zeta;
    [|repeat split; reflexivity].
  destruct (Z.eqb_spec (rootNote (currentChord st)) (NOTE_MAPPING j)) as [Heq|Hne];
    cbn [negb]; repeat split; auto.
Qed.

(** X11. A single-note sensor, by cases. Above the threshold: the chord on
    another root (or no active chord) is released first, with the note-offs
    of the chord set that the stop selects, and replaced by a chord on the
    pitch of the slot, triggered at the moment of the call; then the note-on
    of the slot goes out with the computed velocity, unless the slot sounds
    already; a chord on this root already is left as it is. At or below the
    threshold with the slot sounding: the note-off of the slot goes out,
    then the chord is released if it sits on the pitch of the slot. At or
    below the threshold with the slot silent: nothing is sent and nothing
    changes. *)
Theorem single_note_by_cases (T : Z) (i : nat) (st : State) :
  let r := singleNote T i st in
  let replaces := negb (active (currentChord st))
                  || negb (rootNote (currentChord st) =? NOTE_MAPPING i) in
  (above_threshold st i = true ->
   sent r
   = (if replaces then chordRelease st else [])
     ++ (if noteActive st i then []
         else [mkSent (SlotSite i) (NoteOn (NOTE_MAPPING i) (calculateVelocity i st) 1)])
   /\ noteActive (final r) i = true
   /\ active (currentChord (final r)) = true
   /\ rootNote (currentChord (final r)) = NOTE_MAPPING i
   /\ lastPressTime (currentChord (final r))
      = if replaces then millis T else lastPressTime (currentChord st))
  /\ (above_threshold st i = false ->
      noteActive st i = true ->
      sent r = slotNoteOff i :: (if replaces then [] else chordRelease st)
      /\ noteActive (final r) i = false
      /\ active (currentChord (final r)) = (replaces && active (currentChord st)))
  /\ (above_threshold st i = false ->
      noteActive st i = false ->
      r = mkRun tt st []).
Proof.
  cbv zeta. split; [|split].
  - intros Habove. unfold singleNote.
    rewrite sent_bind, final_bind. cbn [get value final sent app].
    rewrite Habove. cbv zeta. rewrite sent_bind, final_bind.
    rewrite triggerChord_sent, playNote_run, triggerChord_flag.
    pose proof (triggerChord_result i T st) as (Hact & Hroot & Hlast).
    destruct (noteActive st i) eqn:Hflag; cbn [sent final].
    + rewrite triggerChord_flag, Hflag. repeat split; assumption.
    + rewrite noteActive_with_noteActive, Nat.eqb_refl.
      cbn [with_noteActive currentChord]. repeat split; assumption.
  - intros Habove Hflag. unfold singleNote.
    rewrite sent_bind, final_bind. cbn [get value final sent app].
    rewrite Habove, Hflag. cbn [when].
    rewrite !sent_bind, !final_bind, releaseNote_run, Hflag.
    cbn [get value final sent app with_noteActive currentChord].
    set (st1 := with_noteActive i false st).
    assert (Hrel : chordRelease st1 = chordRelease st).
    { apply chordRelease_ext; reflexivity. }
    destruct (active (currentChord st)) eqn:Hact; cbn [negb orb andb].
    + destruct (rootNote (currentChord st) =? NOTE_MAPPING i); cbn [negb when andb].
      * rewrite stopCurrentChord_sent, Hrel.
        unfold noteActive. rewrite (stopCurrentChord_keeps_notes st1).
        fold (noteActive st1 i). unfold st1.
        rewrite noteActive_with_noteActive, Nat.eqb_refl.
        rewrite stopCurrentChord_stops. repeat split; reflexivity.
      * cbn [skip ret sent final]. unfold st1.
        rewrite noteActive_with_noteActive, Nat.eqb_refl.
        cbn [with_noteActive currentChord]. rewrite Hact. repeat split; reflexivity.
    + cbn [skip ret sent final when]. unfold st1.
      rewrite noteActive_with_noteActive, Nat.eqb_refl.
      cbn [with_noteActive currentChord]. rewrite Hact. repeat split; reflexivity.
  - intros Habove Hflag. unfold singleNote, bind. cbn [get value final sent].
    rewrite Habove, Hflag. reflexivity.
Qed.

(** The cases at work: sensor 0 pressed for the first time starts the chord
    on pitch 60 with one note-on; let go, it sends the note-off. *)
Lemma single_note_by_cases_witness :
  wire (sent (singleNote 1000 0 (with_sensors (float_of_bits 0) (sensors [(0%nat, 200%N)]) initial)))
  = [NoteOn 60 79 1]
  /\ wire (sent (singleNote 1300 0 (with_sensors (float_of_bits 0) (sensors []) holdingC)))
     = [NoteOff 60 0 1].
Proof.
  split.
  - rewrite (proj1 (proj1 (single_note_by_cases 1000 0
                             (with_sensors (float_of_bits 0) (sensors [(0%nat, 200%N)]) initial))
                      eq_refl)).
    reflexivity.
  - rewrite (proj1 (proj1 (proj2 (single_note_by_cases 1300 0
                                    (with_sensors (float_of_bits 0) (sensors []) holdingC)))
                      eq_refl eq_refl)).
    reflexivity.
Defined.

(** One branch of [handleComboNotes]: the trigger of combo slot [k] from the
    sensor [s], with the single-note slot [twin] that shares the sensor. *)
Lemma combo_branch (T : Z) (k s twin : nat) (st : State) :
  k <> twin ->
  let r := (triggerChord k T ;;
            playNote k (calculateVelocity s st) ;;
            st1 <- get ;;
            when (noteActive st1 twin) (releaseNote twin)) st in
  sent r
  = (if negb (active (currentChord st))
        || negb (rootNote (currentChord st) =? NOTE_MAPPING k)
     then chordRelease st else [])
    ++ (if noteActive st k then []
        else [mkSent (SlotSite k) (NoteOn (NOTE_MAPPING k) (calculateVelocity s st) 1)])
    ++ (if noteActive st twin then [slotNoteOff twin] else [])
  /\ (forall j, noteActive (final r) j
                = if (j =? twin)%nat then false
                  else if (j =? k)%nat then true
                  else noteActive st j)
  /\ active (currentChord (final r)) = true
  /\ rootNote (currentChord (final r)) = NOTE_MAPPING k.
Proof.
  intros Hkt. cbv zeta.
  rewrite !sent_bind, !final_bind. cbn [get value final sent app].
  set (st1 := final (triggerChord k T st)).
  set (st2 := final (playNote k (calculateVelocity s st) st1)).
  assert (Hflag2 : forall j, noteActive st2 j
                             = if (j =? k)%nat then true else noteActive st j).
  { intros j. unfold st2. rewrite playNote_flag. unfold st1.
    rewrite triggerChord_flag. reflexivity. }
  assert (Hchord2 : currentChord st2 = currentChord st1).
  { apply (playNote_keeps_chord k (calculateVelocity s st) st1). }
  pose proof (triggerChord_result k T st) as (Hact & Hroot & _). fold st1 in Hact, Hroot.
  split; [|split; [|split]].
  - rewrite triggerChord_sent. f_equal.
    rewrite playNote_run. fold st1. unfold st1 at 1. rewrite triggerChord_flag.
    rewrite (Hflag2 twin). destruct (Nat.eqb_spec twin k) as [E|_]; [congruence|].
    destruct (noteActive st k); cbn [sent]; f_equal;
      destruct (noteActive st twin) eqn:Htwin; cbn [when skip ret sent];
      rewrite ?releaseNote_run, ?Hflag2;
      destruct (Nat.eqb_spec twin k); try congruence; rewrite ?Htwin; reflexivity.
  - intros j. rewrite when_release_flag, (Hflag2 twin), (Hflag2 j).
    destruct (Nat.eqb_spec twin k) as [E|_]; [congruence|].
    destruct (Nat.eqb_spec j twin) as [->|Hjt].
    + destruct (Nat.eqb_spec twin k); [congruence|].
      destruct (noteActive st twin) eqn:Htwin; cbn [andb]; reflexivity.
    + rewrite andb_false_r. reflexivity.
  - destruct (noteActive st2 twin); cbn [when skip ret final].
    + rewrite (releaseNote_keeps_chord twin st2), Hchord2. exact Hact.
    + rewrite Hchord2. exact Hact.
  - destruct (noteActive st2 twin); cbn [when skip ret final].
    + rewrite (releaseNote_keeps_chord twin st2), Hchord2. exact Hroot.
    + rewrite Hchord2. exact Hroot.
Qed.

(** X12. The combo sensors, by cases, first match first. With sensor 1 above
    the threshold, whatever sensor 2 reads: the chord on another root is
    released and replaced by the chord on A4, the note-on of slot 5 goes out
    unless it sounds already, then the note-off of slot 1 if slot 1 sounds;
    nothing is sent for slot 6, whose flag stays as it was. With sensor 1 at
    or below and sensor 2 above: the same on B4 with slot 6 and slot 2, and
    slot 5 untouched. With neither above: the note-offs of slots 5 and 6 that
    sound, then the release of the chord if it sits on A4 or B4. *)
Theorem combo_notes_by_cases (T : Z) (st : State) :
  let r := handleComboNotes T st in
  (above_threshold st A4_KEY = true ->
   sent r
   = (if negb (active (currentChord st)) || negb (rootNote (currentChord st) =? A4)
      then chordRelease st else [])
     ++ (if noteActive st 5 then []
         else [mkSent (SlotSite 5) (NoteOn A4 (calculateVelocity A4_KEY st) 1)])
     ++ (if noteActive st 1 then [slotNoteOff 1] else [])
   /\ noteActive (final r) 5 = true
   /\ noteActive (final r) 1 = false
   /\ noteActive (final r) 6 = noteActive st 6
   /\ active (currentChord (final r)) = true
   /\ rootNote (currentChord (final r)) = A4)
  /\ (above_threshold st A4_KEY = false ->
      above_threshold st B4_KEY = true ->
      sent r
      = (if negb (active (currentChord st)) || negb (rootNote (currentChord st) =? B4)
         then chordRelease st else [])
        ++ (if noteActive st 6 then []
            else [mkSent (SlotSite 6) (NoteOn B4 (calculateVelocity B4_KEY st) 1)])
        ++ (if noteActive st 2 then [slotNoteOff 2] else [])
      /\ noteActive (final r) 6 = true
      /\ noteActive (final r) 2 = false
      /\ noteActive (final r) 5 = noteActive st 5
      /\ active (currentChord (final r)) = true
      /\ rootNote (currentChord (final r)) = B4)
  /\ (above_threshold st A4_KEY = false ->
      above_threshold st B4_KEY = false ->
      sent r
      = (if noteActive st 5 then [slotNoteOff 5] else [])
        ++ (if noteActive st 6 then [slotNoteOff 6] else [])
        ++ (if active (currentChord st)
               && ((rootNote (currentChord st) =? A4) || (rootNote (currentChord st) =? B4))
            then chordRelease st else [])
      /\ noteActive (final r) 5 = false
      /\ noteActive (final r) 6 = false).
Proof.
  cbv zeta. split; [|split].
  - intros Ha.
    pose proof (combo_branch T 5 A4_KEY 1 st ltac:(discriminate)) as Hb. cbv zeta in Hb.
    assert (Hs : sent (handleComboNotes T st)
                 = sent ((triggerChord 5 T ;; playNote 5 (calculateVelocity A4_KEY st) ;;
                          st1 <- get ;; when (noteActive st1 1) (releaseNote 1)) st)).
    { unfold handleComboNotes. rewrite sent_bind. cbn [get value final sent app].
      rewrite Ha. reflexivity. }
    assert (Hf : final (handleComboNotes T st)
                 = final ((triggerChord 5 T ;; playNote 5 (calculateVelocity A4_KEY st) ;;
                           st1 <- get ;; when (noteActive st1 1) (releaseNote 1)) st)).
    { unfold handleComboNotes. rewrite final_bind. cbn [get value final].
      rewrite Ha. reflexivity. }
    rewrite Hs, Hf. destruct Hb as (Hsent & Hflags & Hact & Hroot).
    rewrite (Hflags 5%nat), (Hflags 1%nat), (Hflags 6%nat).
    repeat split; assumption || reflexivity.
  - intros Ha Hb2.
    pose proof (combo_branch T 6 B4_KEY 2 st ltac:(discriminate)) as Hb. cbv zeta in Hb.
    assert (Hs : sent (handleComboNotes T st)
                 = sent ((triggerChord 6 T ;; playNote 6 (calculateVelocity B4_KEY st) ;;
                          st1 <- get ;; when (noteActive st1 2) (releaseNote 2)) st)).
    { unfold handleComboNotes. rewrite sent_bind. cbn [get value final sent app].
      rewrite Ha, Hb2. reflexivity. }
    assert (Hf : final (handleComboNotes T st)
                 = final ((triggerChord 6 T ;; playNote 6 (calculateVelocity B4_KEY st) ;;
                           st1 <- get ;; when (noteActive st1 2) (releaseNote 2)) st)).
    { unfold handleComboNotes. rewrite final_bind. cbn [get value final].
      rewrite Ha, Hb2. reflexivity. }
    rewrite Hs, Hf. destruct Hb as (Hsent & Hflags & Hact & Hroot).
    rewrite (Hflags 6%nat), (Hflags 2%nat), (Hflags 5%nat).
    repeat split; assumption || reflexivity.
  - intros Ha Hb2.
    pose proof (handleComboNotes_flags T st) as Hfl. rewrite Ha, Hb2 in Hfl.
    split; [|split; [exact (f_equal fst Hfl) | exact (f_equal snd Hfl)]].
    unfold handleComboNotes. rewrite sent_bind. cbn [get value final sent app].
    rewrite Ha, Hb2. rewrite !sent_bind, ?final_bind. cbn [get value final sent app].
    rewrite !releaseNote_run.
    set (st1 := final (if noteActive st 5
                       then mkRun tt (with_noteActive 5 false st) [slotNoteOff 5]
                       else mkRun tt st [])).
    assert (H1 : currentChord st1 = currentChord st /\ inputs st1 = inputs st
                 /\ noteActive st1 6 = noteActive st 6).
    { unfold st1. destruct (noteActive st 5); cbn [final]; repeat split; try reflexivity.
      rewrite noteActive_with_noteActive. reflexivity. }
    destruct H1 as (Hc1 & Hi1 & Hn1). rewrite Hn1.
    set (st2 := final (if noteActive st 6
                       then mkRun tt (with_noteActive 6 false st1) [slotNoteOff 6]
                       else mkRun tt st1 [])).
    assert (H2 : currentChord st2 = currentChord st /\ inputs st2 = inputs st).
    { unfold st2. destruct (noteActive st 6); cbn [final]; split;
        first [exact Hc1 | exact Hi1]. }
    destruct H2 as (Hc2 & Hi2). rewrite Hc2.
    f_equal; [unfold st1; destruct (noteActive st 5); reflexivity|].
    f_equal; [destruct (noteActive st 6); reflexivity|].
    change (NOTE_MAPPING 5) with A4. change (NOTE_MAPPING 6) with B4.
    destruct (active (currentChord st)
              && ((rootNote (currentChord st) =? A4) || (rootNote (currentChord st) =? B4)));
      cbn [when skip ret sent]; [|reflexivity].
    rewrite stopCurrentChord_sent. apply chordRelease_ext; assumption.
Qed.

(** The priority at work: with the combo key and both combo sensors
    pressed, only slot 5 goes on. *)
Lemma combo_notes_by_cases_witness :
  wire (sent (handleComboNotes 1000
                (with_comboKeyActive true
                   (with_sensors (float_of_bits 0)
                      (sensors [(COMBO_KEY, 100%N); (A4_KEY, 100%N); (B4_KEY, 100%N)])
                      initial))))
  = [NoteOn 69 73 1].
Proof.
  rewrite (proj1 (proj1 (combo_notes_by_cases 1000
                           (with_comboKeyActive true
                              (with_sensors (float_of_bits 0)
                                 (sensors [(COMBO_KEY, 100%N); (A4_KEY, 100%N); (B4_KEY, 100%N)])
                                 initial)))
                    eq_refl)).
  reflexivity.
Defined.

(** ** Several sensors held in single-note mode *)

Lemma final_forEach_app {A : Type} (l1 l2 : list A) (body : A -> M unit) st :
  final (forEach (l1 ++ l2) body st) = final (forEach l2 body (final (forEach l1 body st))).
Proof.
  revert st. induction l1 as [|a l1 IH]; intros st; cbn [forEach app].
  - reflexivity.
  - rewrite !final_bind, IH. reflexivity.
Qed.

Lemma singleNotes_keep_inputs T l : keeps inputs (forEach l (singleNote T)).
Proof. keeps_all. Qed.

Lemma NOTE_MAPPING_inj i j :
  (i < 7)%nat -> (j < 7)%nat -> NOTE_MAPPING i = NOTE_MAPPING j -> i = j.
Proof.
  intros Hi Hj.
  do 7 (destruct i as [|i]; [do 7 (destruct j as [|j]; [cbv; congruence|]); lia|]).
  lia.
Qed.

(** The chord after the loop body at sensor [i]. *)
Lemma singleNote_chord T i st :
  currentChord (final (singleNote T i st))
  = if above_threshold st i then currentChord (final (triggerChord i T st))
    else if noteActive st i && active (currentChord st)
            && (rootNote (currentChord st) =? NOTE_MAPPING i)
         then chord_active false (currentChord st)
         else currentChord st.
Proof.
  unfold singleNote. rewrite final_bind. cbn [get value final].
  destruct (above_threshold st i).
  - cbv zeta. rewrite final_bind.
    apply (playNote_keeps_chord i (calculateVelocity i st) (final (triggerChord i T st))).
  - destruct (noteActive st i) eqn:Hflag; cbn [when andb]; [|reflexivity].
    rewrite !final_bind, releaseNote_run, Hflag. cbn [get value final].
    cbn [with_noteActive currentChord].
    destruct (active (currentChord st) && (rootNote (currentChord st) =? NOTE_MAPPING i))
      eqn:Hstop; cbn [when skip ret final]; [|reflexivity].
    rewrite stopCurrentChord_chord. cbn [with_noteActive currentChord].
    apply andb_true_iff in Hstop. destruct Hstop as [-> _]. reflexivity.
Qed.

(** The sensors of [l] above the threshold decide the chord after the loop
    over [l]: it is active on the pitch of the last of them, and triggered
    at the moment of the call when there are two of them or more. *)
Lemma singleNotes_chord T l :
  NoDup l -> Forall (fun i => (i < 7)%nat) l ->
  forall st,
    let pressed := filter (above_threshold st) l in
    let c := currentChord (final (forEach l (singleNote T) st)) in
    (pressed <> [] -> active c = true /\ rootNote c = NOTE_MAPPING (last pressed 0%nat))
    /\ ((2 <= length pressed)%nat -> lastPressTime c = millis T).
Proof.
  induction l as [|i l IH] using rev_ind; intros Hnd Hlt st; cbv zeta.
  - cbn [filter]. split; [congruence | cbn; lia].
  - apply NoDup_remove in Hnd. rewrite app_nil_r in Hnd. destruct Hnd as [Hnd Hni].
    apply Forall_app in Hlt. destruct Hlt as [Hlt Hi]. inversion Hi as [|? ? Hi7 _]; subst.
    specialize (IH Hnd Hlt st). cbv zeta in IH. destruct IH as [IH1 IH2].
    rewrite final_forEach_app, filter_app. cbn [forEach filter].
    set (mid := final (forEach l (singleNote T) st)) in *.
    assert (Hin : inputs mid = inputs st) by apply (singleNotes_keep_inputs T l st).
    assert (Hab : above_threshold mid i = above_threshold st i).
    { destruct (inputs_eq _ _ Hin) as [Hp _]. unfold above_threshold, pressure.
      rewrite Hp. reflexivity. }
    rewrite final_bind. cbn [skip ret final]. rewrite singleNote_chord, Hab.
    assert (Hlast : filter (above_threshold st) l <> [] ->
                    rootNote (currentChord mid) <> NOTE_MAPPING i
                    /\ active (currentChord mid) = true).
    { intros Hne. destruct (IH1 Hne) as [Hact Hroot]. split; [|exact Hact].
      rewrite Hroot. intros Heq.
      assert (Hk : In (last (filter (above_threshold st) l) 0%nat) l).
      { destruct (exists_last Hne) as (l0 & k & Hl0). rewrite Hl0, last_last.
        assert (Hk : In k (filter (above_threshold st) l)).
        { rewrite Hl0. apply in_or_app. right. now left. }
        apply filter_In in Hk. apply Hk. }
      apply NOTE_MAPPING_inj in Heq.
      - subst i. contradiction.
      - rewrite Forall_forall in Hlt. apply Hlt. exact Hk.
      - exact Hi7. }
    destruct (above_threshold st i) eqn:Habove.
    + pose proof (triggerChord_result i T mid) as (Hact & Hroot & Hlp).
      split.
      * intros _. rewrite last_last. split; assumption.
      * rewrite length_app. cbn [length]. intros Hlen. rewrite Hlp.
        assert (Hne : filter (above_threshold st) l <> []).
        { destruct (filter (above_threshold st) l); [cbn in Hlen; lia | discriminate]. }
        destruct (Hlast Hne) as [Hroot' Hact'].
        rewrite Hact'. apply Z.eqb_neq in Hroot'. rewrite Hroot'. reflexivity.
    + rewrite app_nil_r.
      assert (Hsame : filter (above_threshold st) l <> [] ->
                      (if noteActive mid i && active (currentChord mid)
                          && (rootNote (currentChord mid) =? NOTE_MAPPING i)
                       then chord_active false (currentChord mid)
                       else currentChord mid) = currentChord mid).
      { intros Hne. destruct (Hlast Hne) as [Hroot' _].
        apply Z.eqb_neq in Hroot'. rewrite Hroot', andb_false_r. reflexivity. }
      split.
      * intros Hne. rewrite (Hsame Hne). apply IH1. exact Hne.
      * intros Hlen.
        assert (Hne : filter (above_threshold st) l <> []).
        { destruct (filter (above_threshold st) l); [cbn in Hlen; lia | discriminate]. }
        rewrite (Hsame Hne). apply IH2. exact Hlen.
Qed.

Lemma firstAbove_filter st l :
  firstAbove st l = match filter (above_threshold st) l with
                    | [] => -1
                    | i :: _ => Z.of_nat i
                    end.
Proof.
  induction l as [|i l IH]; cbn [firstAbove filter]; [reflexivity|].
  destruct (above_threshold st i); [reflexivity | exact IH].
Qed.

Lemma handleChordPlayback_chord T st :
  0 <= playbackIndex st ->
  currentChord (final (handleChordPlayback T st)) = currentChord st.
Proof.
  intros Hidx. rewrite handleChordPlayback_run.
  destruct (negb (gateOpen st)); [reflexivity|].
  destruct (Z.ltb_spec (playbackIndex st) 0); [lia|].
  destruct (stepDue T st); reflexivity.
Qed.

(** X13. Several sensors held in single-note mode. After an accepted
    notification that leaves the combo latch inactive with at least one of
    the sensors 0..4 above the threshold, the chord is active on the pitch of
    the highest such sensor, while the arpeggio takes its notes from the
    chord set of the lowest one. With two or more of them above the
    threshold the chord is triggered anew by every such notification: its
    trigger time is the moment of the notification, and the sustain is not
    asserted. *)
Theorem several_sensors_held (pData : list byte) (T : Z) (st : State) :
  rejected pData = false ->
  let st' := final (onNotify pData T st) in
  let pressed := filter (above_threshold st') (seq 0 5) in
  comboKeyActive st' = false ->
  ((1 <= length pressed)%nat ->
   active (currentChord st') = true
   /\ rootNote (currentChord st') = NOTE_MAPPING (last pressed 0%nat)
   /\ playbackIndex st' = Z.of_nat (hd 0%nat pressed))
  /\ ((2 <= length pressed)%nat ->
      lastPressTime (currentChord st') = millis T
      /\ sustainActive st' = false).
Proof.
  intros Hrej. cbv zeta. intros Hlatch.
  set (st1 := with_sensors (float_at pData 6) (pressures_of pData) st).
  destruct (onNotify_slots pData T st Hrej) as (Hcombo & Habove & _).
  fold st1 in Hcombo, Habove.
  assert (Hfilter : filter (above_threshold (final (onNotify pData T st))) (seq 0 5)
                    = filter (above_threshold st1) (seq 0 5)).
  { apply filter_ext. exact Habove. }
  rewrite Hfilter.
  set (L := latched st1).
  destruct (latched_facts st1) as (HLc & HLp & _). fold L in HLc, HLp.
  assert (HLabove : forall k, above_threshold L k = above_threshold st1 k).
  { intros k. unfold above_threshold, pressure. rewrite HLp. reflexivity. }
  set (stc := final (checkComboKeys T st1)).
  assert (Hstc : stc = final (handleSingleNotes T L)).
  { unfold stc. rewrite checkComboKeys_final. fold L. rewrite HLc, <- Hcombo, Hlatch.
    reflexivity. }
  assert (Hcin : inputs stc = inputs L).
  { rewrite Hstc. apply (handleSingleNotes_keeps_inputs T L). }
  destruct (inputs_eq _ _ Hcin) as [Hcp Hck].
  assert (Hcabove : forall k, above_threshold stc k = above_threshold st1 k).
  { intros k. rewrite <- HLabove. unfold above_threshold, pressure. rewrite Hcp. reflexivity. }
  assert (Hidx : playbackIndex stc
                 = match filter (above_threshold st1) (seq 0 5) with
                   | [] => -1
                   | i :: _ => Z.of_nat i
                   end).
  { unfold playbackIndex. rewrite Hck, HLc, <- Hcombo, Hlatch, firstAbove_filter.
    rewrite (filter_ext _ _ Hcabove). reflexivity. }
  assert (Hfinal : final (onNotify pData T st)
                   = final (checkSustain T (final (handleChordPlayback T stc)))).
  { unfold onNotify. rewrite Hrej. reflexivity. }
  assert (Hpi : playbackIndex (final (onNotify pData T st)) = playbackIndex stc).
  { rewrite Hfinal. unfold playbackIndex.
    destruct (inputs_eq _ _ (checkSustain_keeps_inputs T (final (handleChordPlayback T stc))))
      as [Hp3 Hk3].
    destruct (inputs_eq _ _ (handleChordPlayback_keeps_inputs T stc)) as [Hp2 Hk2].
    rewrite Hk3, Hk2.
    assert (Hab3 : forall k, above_threshold
                               (final (checkSustain T (final (handleChordPlayback T stc)))) k
                             = above_threshold stc k).
    { intros k. unfold above_threshold, pressure. rewrite Hp3, Hp2. reflexivity. }
    rewrite !Hab3, !firstAbove_filter, (filter_ext _ _ Hab3). reflexivity. }
  pose proof (singleNotes_chord T (seq 0 5) (seq_NoDup 5 0)) as Hloop.
  assert (Hlt : Forall (fun i => (i < 7)%nat) (seq 0 5)) by (repeat constructor).
  specialize (Hloop Hlt L). cbv zeta in Hloop.
  rewrite (filter_ext _ _ HLabove) in Hloop.
  change (forEach (seq 0 5) (singleNote T)) with (handleSingleNotes T) in Hloop.
  rewrite <- Hstc in Hloop. destruct Hloop as [Hone Htwo].
  assert (Hkeep : (1 <= length (filter (above_threshold st1) (seq 0 5)))%nat ->
                  currentChord (final (onNotify pData T st)) = currentChord stc).
  { intros Hlen. rewrite Hfinal.
    rewrite (checkSustain_keeps_chord T (final (handleChordPlayback T stc))).
    apply handleChordPlayback_chord. rewrite Hidx.
    destruct (filter (above_threshold st1) (seq 0 5)); [cbn in Hlen; lia | lia]. }
  split.
  - intros Hlen. rewrite (Hkeep Hlen), Hpi, Hidx.
    assert (Hne : filter (above_threshold st1) (seq 0 5) <> []).
    { destruct (filter (above_threshold st1) (seq 0 5)); [cbn in Hlen; lia | discriminate]. }
    destruct (Hone Hne) as [Hact Hroot].
    split; [exact Hact|]. split; [exact Hroot|].
    destruct (filter (above_threshold st1) (seq 0 5)); [congruence | reflexivity].
  - intros Hlen.
    assert (Hlp : lastPressTime (currentChord (final (onNotify pData T st))) = millis T).
    { rewrite (Hkeep ltac:(lia)). apply Htwo. exact Hlen. }
    split; [exact Hlp|].
    pose proof (onNotify_sustain pData T st Hrej) as Hs. cbv zeta in Hs.
    destruct Hs as (Hflag & _). rewrite Hflag, Hlp.
    unfold ulong_sub, to_ulong. rewrite Z.sub_diag. apply andb_false_r.
Qed.

(** Two sensors at work: sensors 0 and 1 are held with the hand flat, well
    past 300 ms; the chord sits on the pitch of sensor 1, the arpeggio would
    play the chord set of sensor 0, and the sustain stays off. *)
Lemma several_sensors_held_witness :
  rootNote (currentChord
              (final (onNotify (payload flat (sensors [(0%nat, 200%N); (1%nat, 200%N)])) 2000
                        (final (onNotify (payload flat (sensors [(0%nat, 200%N); (1%nat, 200%N)]))
                                  1000 initial)))))
  = NOTE_MAPPING 1
  /\ playbackIndex
       (final (onNotify (payload flat (sensors [(0%nat, 200%N); (1%nat, 200%N)])) 2000
                 (final (onNotify (payload flat (sensors [(0%nat, 200%N); (1%nat, 200%N)]))
                           1000 initial))))
     = 0
  /\ sustainActive
       (final (onNotify (payload flat (sensors [(0%nat, 200%N); (1%nat, 200%N)])) 2000
                 (final (onNotify (payload flat (sensors [(0%nat, 200%N); (1%nat, 200%N)]))
                           1000 initial))))
     = false.
Proof.
  pose proof (several_sensors_held
                (payload flat (sensors [(0%nat, 200%N); (1%nat, 200%N)])) 2000
                (final (onNotify (payload flat (sensors [(0%nat, 200%N); (1%nat, 200%N)]))
                          1000 initial))
                eq_refl) as H.
  cbv zeta in H. destruct (H eq_refl) as [Hone Htwo].
  destruct (Hone ltac:(vm_compute; repeat constructor)) as (_ & Hroot & Hidx).
  destruct (Htwo ltac:(vm_compute; repeat constructor)) as (_ & Hsus).
  split; [exact Hroot|]. split; [exact Hidx | exact Hsus].
Defined.

(** ** The combo chord after the combo key *)

Lemma latched_chord st : currentChord (latched st) = currentChord st.
Proof.
  unfold latched. cbv zeta.
  assert (Hk : keeps currentChord
                 (when (negb (Bool.eqb (above_threshold st COMBO_KEY) (comboKeyActive st)))
                    (modify (with_comboKeyActive (above_threshold st COMBO_KEY)) ;;
                     when (negb (above_threshold st COMBO_KEY))
                       (releaseNote 5 ;; releaseNote 6)))) by keeps_all.
  apply (Hk st).
Qed.

Lemma latched_roll st : currentRoll (latched st) = currentRoll st.
Proof.
  unfold latched. cbv zeta.
  assert (Hk : keeps currentRoll
                 (when (negb (Bool.eqb (above_threshold st COMBO_KEY) (comboKeyActive st)))
                    (modify (with_comboKeyActive (above_threshold st COMBO_KEY)) ;;
                     when (negb (above_threshold st COMBO_KEY))
                       (releaseNote 5 ;; releaseNote 6)))) by keeps_all.
  apply (Hk st).
Qed.

Lemma singleNotes_keep_roll T l : keeps currentRoll (forEach l (singleNote T)).
Proof. keeps_all. Qed.

(** With none of its sensors above the threshold, the loop over [l] leaves
    alone a chord that sits on the pitch of no slot of [l]. *)
Lemma singleNotes_leave_chord T l :
  forall st,
    Forall (fun i => above_threshold st i = false
                     /\ rootNote (currentChord st) <> NOTE_MAPPING i) l ->
    currentChord (final (forEach l (singleNote T) st)) = currentChord st.
Proof.
  induction l as [|i l IH]; intros st Hall; [reflexivity|].
  inversion Hall as [|? ? [Hab Hroot] Hall']; subst.
  cbn [forEach]. rewrite final_bind.
  assert (Hc : currentChord (final (singleNote T i st)) = currentChord st).
  { rewrite singleNote_chord, Hab. apply Z.eqb_neq in Hroot.
    rewrite Hroot, andb_false_r. reflexivity. }
  assert (Hin : inputs (final (singleNote T i st)) = inputs st).
  { apply (singleNotes_keep_inputs T [i] st). }
  rewrite IH; [exact Hc|].
  eapply Forall_impl; [|exact Hall'].
  intros k [Hk1 Hk2]. rewrite Hc. split; [|exact Hk2].
  destruct (inputs_eq _ _ Hin) as [Hp _].
  unfold above_threshold, pressure in *. rewrite Hp. exact Hk1.
Qed.

Lemma checkSustain_keeps_cursor T : keeps currentArpeggioStep (checkSustain T).
Proof. keeps_all. Qed.

(** X14. Letting the combo key go does not stop the combo chord. After an
    accepted notification that leaves the latch inactive, with none of the
    sensors 0..4 above the threshold and the roll within the angle
    threshold, a chord on A4 or B4 is exactly as it was: still active if it
    was, with the trigger time it had. The playback only puts the cursor
    back to 0. *)
Theorem combo_chord_survives_release (pData : list byte) (T : Z) (st : State) :
  rejected pData = false ->
  comboKeyActive (final (onNotify pData T st)) = false ->
  filter (above_threshold (final (onNotify pData T st))) (seq 0 5) = [] ->
  fle (fabs (float_at pData 6)) (float_of_int CHORD_ANGLE_THRESHOLD) = true ->
  rootNote (currentChord st) = A4 \/ rootNote (currentChord st) = B4 ->
  currentChord (final (onNotify pData T st)) = currentChord st
  /\ currentArpeggioStep (final (onNotify pData T st)) = 0.
Proof.
  intros Hrej Hlatch Hnone Hroll Hroot.
  set (st1 := with_sensors (float_at pData 6) (pressures_of pData) st).
  destruct (onNotify_slots pData T st Hrej) as (Hcombo & Habove & _).
  fold st1 in Hcombo, Habove.
  set (L := latched st1).
  destruct (latched_facts st1) as (HLc & HLp & _). fold L in HLc, HLp.
  set (stc := final (checkComboKeys T st1)).
  assert (Hstc : stc = final (handleSingleNotes T L)).
  { unfold stc. rewrite checkComboKeys_final. fold L. rewrite HLc, <- Hcombo, Hlatch.
    reflexivity. }
  assert (HLabove : forall k, above_threshold L k = above_threshold (final (onNotify pData T st)) k).
  { intros k. rewrite Habove. unfold above_threshold, pressure. rewrite HLp. reflexivity. }
  assert (Hchord : currentChord stc = currentChord st).
  { rewrite Hstc. unfold handleSingleNotes. rewrite singleNotes_leave_chord.
    - unfold L. rewrite latched_chord. reflexivity.
    - apply Forall_forall. intros i Hi. split.
      + rewrite HLabove.
        destruct (above_threshold (final (onNotify pData T st)) i) eqn:E; [|reflexivity].
        assert (Hin : In i (filter (above_threshold (final (onNotify pData T st))) (seq 0 5))).
        { apply filter_In. split; assumption. }
        rewrite Hnone in Hin. destruct Hin.
      + unfold L. rewrite latched_chord. change (currentChord st1) with (currentChord st).
        apply in_seq in Hi.
        destruct Hroot as [-> | ->];
          do 5 (destruct i as [|i]; [cbv; discriminate|]); lia. }
  assert (Hrollc : currentRoll stc = float_at pData 6).
  { rewrite Hstc. unfold handleSingleNotes.
    rewrite (singleNotes_keep_roll T (seq 0 5) L). unfold L. rewrite latched_roll.
    reflexivity. }
  assert (Hfinal : final (onNotify pData T st)
                   = final (checkSustain T (final (handleChordPlayback T stc)))).
  { unfold onNotify. rewrite Hrej. reflexivity. }
  assert (Hgate : gateOpen stc = false).
  { unfold gateOpen. rewrite Hrollc, Hroll. apply andb_false_r. }
  assert (Hplay : final (handleChordPlayback T stc) = with_currentArpeggioStep 0 stc).
  { rewrite handleChordPlayback_run, Hgate. reflexivity. }
  rewrite Hfinal, Hplay. split.
  - rewrite (checkSustain_keeps_chord T (with_currentArpeggioStep 0 stc)). exact Hchord.
  - rewrite (checkSustain_keeps_cursor T (with_currentArpeggioStep 0 stc)). reflexivity.
Qed.

Lemma combo_chord_survives_release_witness :
  currentChord (final (onNotify (released flat) 1010
                         (final (onNotify (comboA flat) 1000 initial))))
  = currentChord (final (onNotify (comboA flat) 1000 initial))
  /\ currentArpeggioStep (final (onNotify (released flat) 1010
                                   (final (onNotify (comboA flat) 1000 initial)))) = 0.
Proof.
  apply (combo_chord_survives_release (released flat) 1010
           (final (onNotify (comboA flat) 1000 initial))); try reflexivity.
  left. reflexivity.
Defined.

(** ** The same snapshot twice *)

Lemma chordRelease_no_slot_message st : Forall (fun e => fromSlot e = false) (chordRelease st).
Proof.
  unfold chordRelease. destruct (active (currentChord st)); [|constructor].
  destruct (stopSelection st); [|constructor].
  unfold chordOffs. apply Forall_map. apply Forall_forall. intros; reflexivity.
Qed.

Lemma singleNote_flag T j st i :
  noteActive (final (singleNote T j st)) i
  = if (i =? j)%nat then above_threshold st j else noteActive st i.
Proof.
  unfold singleNote. rewrite final_bind. cbn [get value final].
  destruct (above_threshold st j) eqn:Hab.
  - cbv zeta. rewrite final_bind, playNote_flag, triggerChord_flag. reflexivity.
  - destruct (noteActive st j) eqn:Hflag; cbn [when].
    + rewrite !final_bind. cbn [get value final].
      rewrite when_stop_flag, releaseNote_flag. reflexivity.
    + cbn [skip ret final]. destruct (Nat.eqb_spec i j) as [->|]; [exact Hflag | reflexivity].
Qed.

Lemma singleNotes_flag T l :
  NoDup l ->
  forall st i,
    noteActive (final (forEach l (singleNote T) st)) i
    = if existsb (Nat.eqb i) l then above_threshold st i else noteActive st i.
Proof.
  induction 1 as [|j l Hnj Hnd IH]; intros st i; [reflexivity|].
  cbn [forEach existsb]. rewrite final_bind, IH, singleNote_flag.
  assert (Hin : inputs (final (singleNote T j st)) = inputs st)
    by apply (singleNotes_keep_inputs T [j] st).
  assert (Hab : above_threshold (final (singleNote T j st)) i = above_threshold st i).
  { destruct (inputs_eq _ _ Hin) as [Hp _]. unfold above_threshold, pressure.
    rewrite Hp. reflexivity. }
  rewrite Hab. destruct (Nat.eqb_spec i j) as [->|Hne]; cbn [orb]; [|reflexivity].
  destruct (existsb (Nat.eqb j) l); reflexivity.
Qed.

(** A sensor whose slot agrees with it sends no slot message and leaves the
    note flags as they are. *)
Lemma singleNote_settled T i st :
  noteActive st i = above_threshold st i ->
  Forall (fun e => fromSlot e = false) (sent (singleNote T i st))
  /\ notesActive (final (singleNote T i st)) = notesActive st.
Proof.
  intros Hflag. unfold singleNote. rewrite sent_bind, final_bind.
  cbn [get value final sent app].
  destruct (above_threshold st i) eqn:Hab.
  - cbv zeta. rewrite sent_bind, final_bind, playNote_run, triggerChord_flag, Hflag.
    cbn [sent final]. rewrite app_nil_r, triggerChord_sent. split.
    + destruct (negb (active (currentChord st))
                || negb (rootNote (currentChord st) =? NOTE_MAPPING i));
        [apply chordRelease_no_slot_message | constructor].
    + apply (triggerChord_keeps_notes i T st).
  - rewrite Hflag. cbn [when skip ret sent final]. split; [constructor | reflexivity].
Qed.

Lemma singleNotes_settled T l :
  forall st,
    (forall i, In i l -> noteActive st i = above_threshold st i) ->
    Forall (fun e => fromSlot e = false) (sent (forEach l (singleNote T) st)).
Proof.
  induction l as [|j l IH]; intros st Hall; [constructor|].
  cbn [forEach]. rewrite sent_bind.
  destruct (singleNote_settled T j st (Hall j (or_introl eq_refl))) as [Hq Hn].
  apply Forall_app. split; [exact Hq|].
  apply IH. intros i Hi.
  assert (Hin : inputs (final (singleNote T j st)) = inputs st)
    by apply (singleNotes_keep_inputs T [j] st).
  destruct (inputs_eq _ _ Hin) as [Hp _].
  unfold noteActive, above_threshold, pressure. rewrite Hn, Hp.
  apply Hall. now right.
Qed.

Lemma settled_ext a b :
  inputs a = inputs b -> notesActive a = notesActive b -> settled b -> settled a.
Proof.
  intros Hin Hn. destruct (inputs_eq _ _ Hin) as [Hp Hc].
  unfold settled, above_threshold, pressure, noteActive. rewrite Hp, Hc, Hn. exact id.
Qed.

Lemma handleComboNotes_settles T st :
  if above_threshold st A4_KEY then
    noteActive (final (handleComboNotes T st)) 5 = true
    /\ noteActive (final (handleComboNotes T st)) 1 = false
  else if above_threshold st B4_KEY then
    noteActive (final (handleComboNotes T st)) 6 = true
    /\ noteActive (final (handleComboNotes T st)) 2 = false
  else
    noteActive (final (handleComboNotes T st)) 5 = false
    /\ noteActive (final (handleComboNotes T st)) 6 = false.
Proof.
  unfold handleComboNotes. rewrite final_bind. cbn [get value final].
  destruct (above_threshold st A4_KEY); [|destruct (above_threshold st B4_KEY)];
    cbv zeta; rewrite !final_bind; cbn [get value final];
    rewrite ?when_release_flag, ?when_stop_flag, ?releaseNote_flag, ?playNote_flag,
      ?triggerChord_flag; cbn [Nat.eqb]; rewrite ?andb_false_r, ?andb_true_r.
  - split; [reflexivity | destruct (noteActive st 1); reflexivity].
  - split; [reflexivity | destruct (noteActive st 2); reflexivity].
  - split; reflexivity.
Qed.

(** [checkComboKeys] leaves the note flags in agreement with the sensors. *)
Lemma checkComboKeys_settles T st : settled (final (checkComboKeys T st)).
Proof.
  destruct (latched_facts st) as (Hlatch & Hpress & _).
  assert (Habove : forall k, above_threshold (latched st) k = above_threshold st k).
  { intros k. unfold above_threshold, pressure. rewrite Hpress. reflexivity. }
  rewrite checkComboKeys_final. unfold settled.
  destruct (comboKeyActive (latched st)) eqn:Hmode.
  - destruct (inputs_eq _ _ (handleComboNotes_keeps_inputs T (latched st))) as [Hp Hc].
    assert (Hab : forall k, above_threshold (final (handleComboNotes T (latched st))) k
                            = above_threshold (latched st) k).
    { intros k. unfold above_threshold, pressure. rewrite Hp. reflexivity. }
    rewrite Hc, !Hab, Hmode. split; [rewrite Habove, <- Hlatch; reflexivity|].
    exact (handleComboNotes_settles T (latched st)).
  - destruct (inputs_eq _ _ (handleSingleNotes_keeps_inputs T (latched st))) as [Hp Hc].
    assert (Hab : forall k, above_threshold (final (handleSingleNotes T (latched st))) k
                            = above_threshold (latched st) k).
    { intros k. unfold above_threshold, pressure. rewrite Hp. reflexivity. }
    rewrite Hc, Hab, Hmode. split; [rewrite Habove, <- Hlatch; reflexivity|].
    intros i Hi. rewrite Hab. unfold handleSingleNotes.
    rewrite singleNotes_flag by apply seq_NoDup.
    do 5 (destruct i as [|i]; [reflexivity|]). lia.
Qed.

(** With the flags in agreement with the sensors, [checkComboKeys] sends no
    slot message. *)
Lemma checkComboKeys_settled T st :
  settled st -> Forall (fun e => fromSlot e = false) (sent (checkComboKeys T st)).
Proof.
  intros [Hlatch Hflags].
  unfold checkComboKeys. rewrite !sent_bind. cbn [get value final sent app]. cbv zeta.
  rewrite <- Hlatch, Bool.eqb_reflx. cbn [negb when skip ret sent final value app].
  destruct (comboKeyActive st).
  - unfold handleComboNotes. rewrite sent_bind. cbn [get value final sent app].
    destruct (above_threshold st A4_KEY); [|destruct (above_threshold st B4_KEY)].
    + destruct Hflags as [H5 H1].
      destruct (combo_branch T 5 A4_KEY 1 st ltac:(discriminate)) as (Hsent & _).
      cbv zeta in Hsent |- *. rewrite Hsent, H5, H1, !app_nil_r.
      destruct (_ || _); [apply chordRelease_no_slot_message | constructor].
    + destruct Hflags as [H6 H2].
      destruct (combo_branch T 6 B4_KEY 2 st ltac:(discriminate)) as (Hsent & _).
      cbv zeta in Hsent |- *. rewrite Hsent, H6, H2, !app_nil_r.
      destruct (_ || _); [apply chordRelease_no_slot_message | constructor].
    + destruct Hflags as [H5 H6].
      rewrite !sent_bind, ?final_bind. cbn [get value final sent app].
      rewrite ?final_bind, (releaseNote_run 5 st), H5. cbn [sent final app].
      rewrite (releaseNote_run 6 st), H6. cbn [sent final app value].
      destruct (_ && _); cbn [when skip ret sent]; [|constructor].
      rewrite stopCurrentChord_sent. apply chordRelease_no_slot_message.
  - apply singleNotes_settled. intros i Hi. apply Hflags.
    apply in_seq in Hi. lia.
Qed.

Lemma playback_no_slot_message e : fromPlayback e -> fromSlot e = false.
Proof. unfold fromPlayback, fromSlot. destruct (site e); intros H; [destruct H | | |]; reflexivity. Qed.

Lemma pedal_no_slot_message e : fromPedal e -> fromSlot e = false.
Proof. unfold fromPedal, fromSlot. intros ->. reflexivity. Qed.

(** X15. The note slots follow the snapshot, not the notifications: when
    the glove sends the same accepted payload again, whatever the time, the
    second notification sends no message of a note slot; what it sends comes
    from the arpeggio, a chord stop or the sustain. *)
Theorem repeated_snapshot_moves_no_slot (pData : list byte) (T T' : Z) (st : State) :
  rejected pData = false ->
  Forall (fun e => fromSlot e = false)
         (sent (onNotify pData T' (final (onNotify pData T st)))).
Proof.
  intros Hrej.
  set (roll := float_at pData 6). set (p := pressures_of pData).
  assert (Hfinal : forall U s,
             final (onNotify pData U s)
             = final (checkSustain U (final (handleChordPlayback U
                        (final (checkComboKeys U (with_sensors roll p s))))))).
  { intros U s. unfold onNotify. rewrite Hrej. reflexivity. }
  assert (Hsent : forall U s,
             sent (onNotify pData U s)
             = sent (checkComboKeys U (with_sensors roll p s))
               ++ sent (handleChordPlayback U
                          (final (checkComboKeys U (with_sensors roll p s))))
               ++ sent (checkSustain U (final (handleChordPlayback U
                          (final (checkComboKeys U (with_sensors roll p s))))))).
  { intros U s. unfold onNotify. rewrite Hrej. reflexivity. }
  set (stc := final (checkComboKeys T (with_sensors roll p st))).
  set (st1 := final (onNotify pData T st)).
  assert (Hin : inputs st1 = inputs stc).
  { unfold st1. rewrite Hfinal. fold stc.
    rewrite (checkSustain_keeps_inputs T (final (handleChordPlayback T stc))).
    apply (handleChordPlayback_keeps_inputs T stc). }
  assert (Hnotes : notesActive st1 = notesActive stc).
  { unfold st1. rewrite Hfinal. fold stc.
    rewrite (checkSustain_keeps_notes T (final (handleChordPlayback T stc))).
    apply (handleChordPlayback_keeps_notes T stc). }
  assert (Hpress : pressureData st1 = p).
  { destruct (inputs_eq _ _ Hin) as [Hp _]. rewrite Hp. unfold stc.
    destruct (checkComboKeys_slots T (with_sensors roll p st)) as (_ & Hp1 & _).
    rewrite Hp1. reflexivity. }
  assert (Hsettled : settled (with_sensors roll p st1)).
  { apply (settled_ext _ st1).
    - unfold inputs. cbn [pressureData comboKeyActive with_sensors]. rewrite Hpress.
      reflexivity.
    - reflexivity.
    - apply (settled_ext _ stc Hin Hnotes). apply checkComboKeys_settles. }
  rewrite Hsent. apply Forall_app; split; [|apply Forall_app; split].
  - apply checkComboKeys_settled. exact Hsettled.
  - eapply Forall_impl; [exact playback_no_slot_message|].
    apply (handleChordPlayback_fromPlayback T').
  - eapply Forall_impl; [exact pedal_no_slot_message|].
    apply (checkSustain_fromPedal T').
Qed.

Lemma repeated_snapshot_moves_no_slot_witness :
  Forall (fun e => fromSlot e = false)
         (sent (onNotify pressC 1010 (final (onNotify pressC 1000 initial)))).
Proof. apply (repeated_snapshot_moves_no_slot pressC 1000 1010 initial). reflexivity. Defined.
